(** * The slim-based cell-type hierarchy of [src/api/options_api.py]

    A shallow embedding of [get_cell_tree] and of the helpers it is built
    from, followed by the properties of the hierarchy builder.

    Conventions of the embedding.
    - A Python [str] is a [string]; the labels and names handled here are
      taken to be ASCII, where [str.casefold] and [str.lower] coincide and
      only touch the letters [A-Z].
    - A Python [dict] is an association list in insertion order (the order
      in which [dict] iterates).
    - A Python [set] of strings is a duplicate-free list holding its
      elements; the order in which the interpreter iterates over a set is
      not fixed by the language (it follows the per-process string hash),
      so it is an explicit parameter of the model, a [set_order].
    - A lookup in the node table that would raise [KeyError], and a
      recursion that would not return, are the [None] of [option]; the
      recursive functions [agg] and [pack] take a depth budget, the number
      of slims, which [agg_total] and [pack_total] show to be enough.
    - [get_cell_tree] takes the records that [_fetch_biosample_types]
      returned as its argument. *)

From Stdlib Require Import List String Ascii Bool Arith ZArith Lia.
From Stdlib Require Import Permutation Sorted.
Import ListNotations.
Local Open Scope string_scope.
Local Open Scope list_scope.

(** ** Strings *)

Definition is_upper (c : ascii) : bool :=
  let n := nat_of_ascii c in ((65 <=? n) && (n <=? 90))%nat.

Definition lower_char (c : ascii) : ascii :=
  if is_upper c then ascii_of_nat (nat_of_ascii c + 32) else c.

(** [str.lower] *)
Fixpoint lower (s : string) : string :=
  match s with
  | EmptyString => EmptyString
  | String c s' => String (lower_char c) (lower s')
  end.

(** [str.casefold] *)
Definition casefold (s : string) : string := lower s.

(** [str.isspace] on one character: tab to carriage return, the four
    separators 28..31 and the blank. *)
Definition is_space (c : ascii) : bool :=
  let n := nat_of_ascii c in
  ((9 <=? n)%nat && (n <=? 13)%nat) || ((28 <=? n)%nat && (n <=? 32)%nat).

Fixpoint lstrip (s : string) : string :=
  match s with
  | EmptyString => EmptyString
  | String c s' => if is_space c then lstrip s' else s
  end.

Fixpoint rstrip (s : string) : string :=
  match s with
  | EmptyString => EmptyString
  | String c s' =>
      match rstrip s' with
      | EmptyString => if is_space c then EmptyString else String c EmptyString
      | r => String c r
      end
  end.

(** [str.strip] *)
Definition strip (s : string) : string := rstrip (lstrip s).

(** Truth value of a [str]: only the empty string is false. *)
Definition truthy (s : string) : bool := negb (s =? "").

(** ** Sets of strings *)

Definition pyset := list string.

Definition set_mem (x : string) (s : pyset) : bool := existsb (String.eqb x) s.

(** [s.add(x)] *)
Definition set_add (x : string) (s : pyset) : pyset :=
  if set_mem x s then s else s ++ [x].

(** [s.update(l)] *)
Definition set_update (s : pyset) (l : list string) : pyset :=
  fold_left (fun acc x => set_add x acc) l s.

(** [set(l)] *)
Definition set_of_list (l : list string) : pyset := set_update [] l.

Definition issubset (a b : pyset) : bool := forallb (fun x => set_mem x b) a.

(** [a < b] on sets: [b] is larger and contains [a]. *)
Definition set_lt (a b : pyset) : bool :=
  (List.length a <? List.length b)%nat && issubset a b.

(** [a > b] on sets. *)
Definition set_gt (a b : pyset) : bool := set_lt b a.

(** The order in which a set is iterated: some enumeration of its
    elements, the same for the whole run. *)
Record set_order : Type := SetOrder {
  iter :> pyset -> list string;
  iter_perm : forall s, Permutation (iter s) s
}.

Definition insertion_order : set_order :=
  SetOrder (fun s => s) (fun s => Permutation_refl s).

Definition reversed_order : set_order :=
  SetOrder (fun s => rev s) (fun s => Permutation_sym (Permutation_rev s)).

(** ** [sorted(l, key=...)]: a stable sort on the keys *)

Section SortedBy.
Context {A K : Type} (key : A -> K) (ltb : K -> K -> bool).

Fixpoint insert_by (x : A) (l : list A) : list A :=
  match l with
  | [] => [x]
  | y :: l' => if ltb (key y) (key x) then y :: insert_by x l' else x :: l
  end.

Definition sorted (l : list A) : list A := fold_right insert_by [] l.
End SortedBy.

(** Keys of the form [(n, s)], compared as Python compares tuples. *)
Definition key_ltb (k1 k2 : Z * string) : bool :=
  (fst k1 <? fst k2)%Z || ((fst k1 =? fst k2)%Z && String.ltb (snd k1) (snd k2)).

(** ** Dictionaries *)

Definition dict (V : Type) := list (string * V).

Fixpoint dict_get {V} (d : dict V) (k : string) : option V :=
  match d with
  | [] => None
  | (k', v) :: d' => if k' =? k then Some v else dict_get d' k
  end.

Definition keys {V} (d : dict V) : list string := map fst d.

(** [d[k] = f(d[k])] for a key that is present; other keys untouched. *)
Fixpoint dict_update {V} (d : dict V) (k : string) (f : V -> V) : dict V :=
  match d with
  | [] => []
  | (k', v) :: d' =>
      if k' =? k then (k', f v) :: d' else (k', v) :: dict_update d' k f
  end.

(** [d.setdefault(k, set()).add(x)] *)
Fixpoint setdefault_add (d : dict pyset) (k x : string) : dict pyset :=
  match d with
  | [] => [(k, [x])]
  | (k', v) :: d' =>
      if k' =? k then (k', set_add x v) :: d' else (k', v) :: setdefault_add d' k x
  end.

(** ** The catalog loader *)

(** A raw record of the archive; a field the record lacks is [None]. *)
Record biosample_type : Type := BiosampleType {
  classification : option string;
  term_name : option string;
  cell_slims : option (list string)
}.

Record enc_term : Type := EncTerm {
  et_term_name : string;
  et_cell_slims : list string
}.

Definition allowed_classes : pyset :=
  ["primary cell"; "in vitro differentiated cells"; "cell line"; "cell"].

(** [x or d] *)
Definition or_else {A} (x : option A) (d : A) : A :=
  match x with Some v => v | None => d end.

(** [(b.get("classification") or "").strip().lower()] *)
Definition norm_classification (b : biosample_type) : string :=
  lower (strip (or_else (classification b) "")).

Fixpoint load_terms (bios : list biosample_type) : list enc_term :=
  match bios with
  | [] => []
  | b :: rest =>
      let cls := norm_classification b in
      if truthy cls && negb (set_mem cls allowed_classes) then load_terms rest
      else
        match term_name b with
        | None => load_terms rest
        | Some name =>
            if truthy name
            then EncTerm name (or_else (cell_slims b) []) :: load_terms rest
            else load_terms rest
        end
  end.

(** ** Slim buckets *)

Definition add_term (d : dict pyset) (t : enc_term) : dict pyset :=
  fold_left (fun d slim => setdefault_add d slim (et_term_name t))
            (et_cell_slims t) d.

Definition slim_buckets (enc_terms : list enc_term) : dict pyset :=
  let raw := fold_left add_term enc_terms [] in
  filter (fun kv => match snd kv with [] => false | _ => true end) raw.

(** ** Parents, nodes, aggregation and packing *)

Module Node.
Record t : Type := Make {
  id : string;
  label : string;
  children : list string;
  members : list string;
  aggregate_members : option (list string)
}.
End Node.

(** The nested record the builder returns. *)
#[warnings="-register-all"]
Inductive tree_node : Type :=
  TreeNode (id label : string) (members aggregate_members : list string)
           (children : list tree_node).

Definition tn_id (n : tree_node) := let 'TreeNode i _ _ _ _ := n in i.
Definition tn_label (n : tree_node) := let 'TreeNode _ l _ _ _ := n in l.
Definition tn_members (n : tree_node) := let 'TreeNode _ _ m _ _ := n in m.
Definition tn_aggregate_members (n : tree_node) := let 'TreeNode _ _ _ a _ := n in a.
Definition tn_children (n : tree_node) := let 'TreeNode _ _ _ _ c := n in c.

Definition bind {A B} (x : option A) (f : A -> option B) : option B :=
  match x with Some v => f v | None => None end.

Notation "x <- e ;; k" := (bind e (fun x => k))
  (at level 61, e at next level, right associativity).

Fixpoint mapM {A B} (f : A -> option B) (l : list A) : option (list B) :=
  match l with
  | [] => Some []
  | x :: l' => y <- f x ;; ys <- mapM f l' ;; Some (y :: ys)
  end.

Section Builder.
Variable order : set_order.

Section WithBuckets.
Variable slim_members : dict pyset.

(** [slim_members[s]]; the builder only looks up keys of the
    dictionary (see [getitem_key]). *)
Definition getitem (s : string) : pyset :=
  or_else (dict_get slim_members s) [].

Definition slims : list string := keys slim_members.

Definition sizes (s : string) : nat := List.length (getitem s).

(** [cand = [b for b in slims if a != b and slim_members[a] < slim_members[b]]] *)
Definition candidates (a : string) : list string :=
  filter (fun b => negb (a =? b) && set_lt (getitem a) (getitem b)) slims.

(** [set(cand)] after the [discard]s, in iteration order. *)
Definition minimal_of (cand : list string) : list string :=
  filter (fun x =>
            negb (existsb (fun y => negb (x =? y) && set_gt (getitem x) (getitem y)) cand))
         (order cand).

(** [lambda s: (sizes[s], s.casefold())] *)
Definition parent_key (s : string) : Z * string :=
  (Z.of_nat (sizes s), casefold s).

(** One turn of the loop over [slims]: the value left in [parents[a]]. *)
Definition parent_of (a : string) : option string :=
  match candidates a with
  | [] => None
  | cand =>
      match sorted parent_key key_ltb (minimal_of cand) with
      | [] => None
      | parent :: _ => Some parent
      end
  end.

(** [parents], a dictionary over [slims] in their order. *)
Definition parents : dict (option string) :=
  map (fun a => (a, parent_of a)) slims.

Definition ensure_node (nodes : dict Node.t) (s : string) : dict Node.t :=
  match dict_get nodes s with
  | Some _ => nodes
  | None =>
      nodes ++ [(s, Node.Make ("SLIM::" ++ s) s []
                              (sorted casefold String.ltb (order (getitem s)))
                              None)]
  end.

Definition initial_nodes : dict Node.t := fold_left ensure_node slims [].

(** [nd["children"].append(child)] *)
Definition append_child (child : string) (nd : Node.t) : Node.t :=
  Node.Make (Node.id nd) (Node.label nd) (Node.children nd ++ [child])
            (Node.members nd) (Node.aggregate_members nd).

(** One turn of the loop over [parents.items()]: the test is on the truth
    value of [parent], so it fails for [None] and for the empty string.
    The parent is a key of the table (see [parent_of_candidate]). *)
Definition link (nodes : dict Node.t) (cp : string * option string) : dict Node.t :=
  match snd cp with
  | Some parent =>
      if truthy parent && negb (fst cp =? parent)
      then dict_update nodes parent (append_child (fst cp))
      else nodes
  | None => nodes
  end.

Definition linked_nodes : dict Node.t := fold_left link parents initial_nodes.

Definition node_children (nodes : dict Node.t) (s : string) : list string :=
  match dict_get nodes s with Some nd => Node.children nd | None => [] end.

(** [{c for s in slims for c in nodes[s]["children"]}] *)
Definition all_children : pyset :=
  set_of_list (flat_map (node_children linked_nodes) slims).

(** [lambda s: (-sizes[s], s.casefold())] *)
Definition root_key (s : string) : Z * string :=
  ((- Z.of_nat (sizes s))%Z, casefold s).

(** The root list before the fallback: [parents.get(s) is None and s not
    in all_children]. *)
Definition computed_roots : list string :=
  filter (fun s => match dict_get parents s with
                   | Some (Some _) => false
                   | _ => negb (set_mem s all_children)
                   end) slims.

(** The root list after [if not roots and slims]. *)
Definition roots : list string :=
  match computed_roots, slims with
  | [], _ :: _ =>
      match sorted root_key key_ltb slims with
      | r :: _ => [r]
      | [] => []
      end
  | rs, _ => rs
  end.

(** The memoised [agg]; it reads the members and the children of the
    linked table, which the later passes leave as they are. *)
Fixpoint agg (fuel : nat) (s : string) : option (list string) :=
  match fuel with
  | O => None
  | S fuel' =>
      nd <- dict_get linked_nodes s ;;
      seen <- fold_left
                (fun acc c => seen <- acc ;; l <- agg fuel' c ;; Some (set_update seen l))
                (Node.children nd) (Some (set_of_list (Node.members nd))) ;;
      Some (sorted casefold String.ltb (order seen))
  end.

Definition depth_budget : nat := List.length slims.

Definition set_aggregate (l : list string) (nd : Node.t) : Node.t :=
  Node.Make (Node.id nd) (Node.label nd) (Node.children nd)
            (Node.members nd) (Some l).

(** [nodes[s]["aggregate_members"] = agg(s)] *)
Definition annotate (nodes : option (dict Node.t)) (s : string) : option (dict Node.t) :=
  nodes <- nodes ;;
  l <- agg depth_budget s ;;
  Some (dict_update nodes s (set_aggregate l)).

Definition final_nodes : option (dict Node.t) :=
  fold_left annotate slims (Some linked_nodes).

Fixpoint pack (nodes : dict Node.t) (fuel : nat) (s : string) : option tree_node :=
  match fuel with
  | O => None
  | S fuel' =>
      nd <- dict_get nodes s ;;
      am <- Node.aggregate_members nd ;;
      ch <- mapM (pack nodes fuel')
                 (sorted casefold String.ltb (Node.children nd)) ;;
      Some (TreeNode (Node.id nd) (Node.label nd) (Node.members nd) am ch)
  end.

Definition node_aggregate (nodes : dict Node.t) (s : string) : option (list string) :=
  nd <- dict_get nodes s ;; Node.aggregate_members nd.

(** The synthetic root over the packed roots. *)
Definition build_tree : option tree_node :=
  nodes <- final_nodes ;;
  ch <- mapM (pack nodes depth_budget) (sorted casefold String.ltb roots) ;;
  aggs <- mapM (node_aggregate nodes) slims ;;
  Some (TreeNode "SLIM::ROOT" "Cell types" []
                 (sorted casefold String.ltb (order (set_of_list (List.concat aggs))))
                 ch).
End WithBuckets.

Record response : Type := Response { ok : bool; tree : tree_node }.

(** [get_cell_tree], on the records [_fetch_biosample_types] returned. *)
Definition get_cell_tree (bios : list biosample_type) : option response :=
  t <- build_tree (slim_buckets (load_terms bios)) ;;
  Some (Response true t).
End Builder.

(** ** The facet endpoints of the module and the route that serves them

    A search reply is a JSON object; the model keeps the keys the module
    reads ([facets], [@graph], and below them [field], [terms], [key],
    [doc_count]), each absent or present, and takes the values that are
    present to have the JSON type the module expects (objects, lists,
    strings, and an integer count).  The archive and the library
    calls are parameters: [urlencode] builds the query string, and
    [server] gives the outcome of a GET from the requests made before it
    and its URL, either the decoded reply or the exception raised
    ([raise_for_status], a failed connection, a body that is no JSON).
    A computation that makes requests threads the log of the URLs
    requested so far. *)

Record facet_term : Type := FacetTerm {
  ft_key : option string;
  ft_doc_count : option Z
}.

Record facet : Type := Facet {
  f_field : option string;
  f_terms : option (list facet_term)
}.

Record payload : Type := Payload {
  p_facets : option (list facet);
  p_graph : option (list biosample_type)
}.

(** The inner loop of [_facet_terms]: [(key, int(doc_count or 0))] for
    the terms whose key is a true value. *)
Fixpoint collect_terms (terms : list facet_term) : list (string * Z) :=
  match terms with
  | [] => []
  | t :: rest =>
      match ft_key t with
      | Some k =>
          if truthy k
          then (k, or_else (ft_doc_count t) 0%Z) :: collect_terms rest
          else collect_terms rest
      | None => collect_terms rest
      end
  end.

(** The outer loop of [_facet_terms]: it returns at the first facet whose
    field is [field_name]. *)
Fixpoint first_facet (facets : list facet) (field_name : string) : list (string * Z) :=
  match facets with
  | [] => []
  | f :: rest =>
      if match f_field f with Some s => s =? field_name | None => false end
      then collect_terms (or_else (f_terms f) [])
      else first_facet rest field_name
  end.

Definition _facet_terms (p : payload) (field_name : string) : list (string * Z) :=
  first_facet (or_else (p_facets p) []) field_name.

Inductive outcome (A : Type) : Type :=
| Returned (a : A)
| Raised (msg : string).

Arguments Returned {A} a.
Arguments Raised {A} msg.

Definition request_log := list string.

Definition io (A : Type) : Type := request_log -> outcome A * request_log.

Definition ret {A} (a : A) : io A := fun log => (Returned a, log).

Definition io_bind {A B} (m : io A) (f : A -> io B) : io B :=
  fun log =>
    match m log with
    | (Returned a, log') => f a log'
    | (Raised msg, log') => (Raised msg, log')
    end.

Notation "x <~ e ;; k" := (io_bind e (fun x => k))
  (at level 61, e at next level, right associativity).

Definition BASE : string := "https://www.encodeproject.org/search/".

Definition experiment_params : list (string * string) :=
  [("format", "json"); ("frame", "embedded"); ("type", "Experiment");
   ("status", "released"); ("limit", "0")].

Definition file_params : list (string * string) :=
  [("format", "json"); ("frame", "embedded"); ("type", "File");
   ("status", "released"); ("limit", "0")].

Definition biosample_types_url : string :=
  "https://www.encodeproject.org/search/?type=BiosampleType&format=json&frame=object&limit=all".

(** [lambda t: (-t[1], t[0].lower())] *)
Definition count_key (t : string * Z) : Z * string := ((- snd t)%Z, lower (fst t)).

(** [lambda t: (-t[1], t[0])] *)
Definition count_key_exact (t : string * Z) : Z * string := ((- snd t)%Z, fst t).

(** [[a for a, _ in sorted(terms, key=lambda t: (-t[1], t[0].lower()))]] *)
Definition by_count (terms : list (string * Z)) : list string :=
  map fst (sorted count_key key_ltb terms).

(** [[a for a, _ in sorted(assemblies, key=lambda t: (-t[1], t[0]))]] *)
Definition by_count_exact (terms : list (string * Z)) : list string :=
  map fst (sorted count_key_exact key_ltb terms).

(** [[k for k, _ in sorted(terms, key=lambda t: t[0].casefold())]] *)
Definition by_name (terms : list (string * Z)) : list string :=
  map fst (sorted (fun t => casefold (fst t)) String.ltb terms).

Record assays_and_organisms : Type := AssaysAndOrganisms {
  assays : list string;
  organisms : list string
}.

(** The body of the reply of [/options] when nothing was raised. *)
Record options_body : Type := OptionsBody {
  ob_assays : list string;
  ob_organisms : list string;
  ob_targets : list string;
  ob_cell_types : list string;
  ob_cell_tree : tree_node
}.

(** What a route returns: the JSON body with status 200, or the error
    body with status 400 and [str(e)]. *)
Inductive reply (A : Type) : Type :=
| Reply200 (body : A)
| Reply400 (error : string).

Arguments Reply200 {A} body.
Arguments Reply400 {A} error.

Section Options.
Variable urlencode : list (string * string) -> string.
Variable server : request_log -> string -> outcome payload.
Variable order : set_order.

Definition _http_json (url : string) : io payload :=
  fun log => (server log url, log ++ [url]).

Definition _payload (params : list (string * string)) : io payload :=
  _http_json (BASE ++ "?" ++ urlencode params).

Definition get_assays_and_organisms : io assays_and_organisms :=
  p <~ _payload experiment_params ;;
  ret (AssaysAndOrganisms (by_count (_facet_terms p "assay_title"))
                          (by_count (_facet_terms p "organism.scientific_name"))).

Definition get_targets : io (list string) :=
  pe <~ _payload experiment_params ;;
  match by_count (_facet_terms pe "target.label") with
  | [] =>
      pf <~ _payload file_params ;;
      ret (by_count (_facet_terms pf "dataset.target.label"))
  | targets => ret targets
  end.

Definition get_cell_types : io (list string) :=
  p <~ _payload experiment_params ;;
  match _facet_terms p "biosample_ontology.term_name" with
  | [] =>
      pf <~ _payload file_params ;;
      ret (by_name (_facet_terms pf
             "replicates.library.biosample.biosample_ontology.term_name"))
  | terms => ret (by_name terms)
  end.

Definition assemblies_params (organism : option string) : list (string * string) :=
  match organism with
  | Some o =>
      if truthy o
      then file_params ++
           [("organism.scientific_name", o);
            ("dataset.organism.scientific_name", o);
            ("dataset.replicates.library.biosample.donor.organism.scientific_name", o)]
      else file_params
  | None => file_params
  end.

Definition get_assemblies (organism : option string) : io (list string) :=
  p <~ _payload (assemblies_params organism) ;;
  ret (by_count_exact (_facet_terms p "assembly")).

Definition _fetch_biosample_types : io (list biosample_type) :=
  p <~ _http_json biosample_types_url ;;
  ret (or_else (p_graph p) []).

(** [get_cell_tree] with its fetch.  The builder has no [None] (see
    [get_cell_tree_total]); the message stands for the [KeyError] or the
    [RecursionError] a [None] would be. *)
Definition get_cell_tree_io : io response :=
  bios <~ _fetch_biosample_types ;;
  match get_cell_tree order bios with
  | Some r => ret r
  | None => fun log => (Raised "builder", log)
  end.

(** [try: ... return jsonify(...) except Exception as e: return
    jsonify({"ok": False, "error": str(e)}), 400] *)
Definition guarded {A} (m : io A) : request_log -> reply A * request_log :=
  fun log =>
    match m log with
    | (Returned a, log') => (Reply200 a, log')
    | (Raised msg, log') => (Reply400 msg, log')
    end.

Definition api_options : request_log -> reply options_body * request_log :=
  guarded (base <~ get_assays_and_organisms ;;
           targets <~ get_targets ;;
           cell_types <~ get_cell_types ;;
           tree_payload <~ get_cell_tree_io ;;
           ret (OptionsBody (assays base) (organisms base) targets cell_types
                            (tree tree_payload))).

Definition api_assemblies (org : option string) :
  request_log -> reply (list string) * request_log :=
  guarded (get_assemblies org).
End Options.

(** ** Vocabulary of the statements *)

(** [x] comes no later than [y] in a sort on [key]. *)
Definition key_le {A K} (key : A -> K) (ltb : K -> K -> bool) (x y : A) : Prop :=
  ltb (key y) (key x) = false.

(** [a] is a strict subset of [b], as sets of strings. *)
Definition strict_subset (a b : pyset) : Prop := incl a b /\ ~ incl b a.

(** The bucket of [s] in a dictionary of sets, empty when [s] is no key. *)
Definition bucket (d : dict pyset) (s : string) : pyset := or_else (dict_get d s) [].

(** Distinct keys, and every bucket a non-empty duplicate-free list. *)
Definition wf_index (d : dict pyset) : Prop :=
  NoDup (keys d) /\ Forall (fun kv => NoDup (snd kv) /\ snd kv <> []) d.

(** [b] is a strict-superset candidate for [a]. *)
Definition is_candidate (d : dict pyset) (a b : string) : Prop :=
  In b (slims d) /\ b <> a /\ strict_subset (getitem d a) (getitem d b).

(** [b] is a minimal candidate: no candidate lies strictly below it. *)
Definition is_minimal_candidate (d : dict pyset) (a b : string) : Prop :=
  is_candidate d a b /\
  forall y, is_candidate d a y -> ~ strict_subset (getitem d y) (getitem d b).

(** The sorted member list of the node of [s]. *)
Definition members_of (order : set_order) (d : dict pyset) (s : string) : list string :=
  sorted casefold String.ltb (order (getitem d s)).

(** [c] was appended to the children of [p]: [p] is the parent recorded
    for [c], it is a true value and it differs from [c]. *)
Definition child_edge (order : set_order) (d : dict pyset) (p c : string) : bool :=
  match parent_of order d c with
  | Some q => truthy q && negb (c =? q) && (q =? p)
  | None => false
  end.

(** The children list of [p] once all parents are linked. *)
Definition children_of (order : set_order) (d : dict pyset) (p : string) : list string :=
  filter (child_edge order d p) (slims d).

(** How many slims are smaller than [s]: a bound on the depth below [s]. *)
Definition rank (d : dict pyset) (s : string) : nat :=
  List.length (filter (fun t => (sizes d t <? sizes d s)%nat) (slims d)).

(** The aggregate the builder stores for [s]. *)
Definition aggv (order : set_order) (d : dict pyset) (s : string) : list string :=
  or_else (agg order d (depth_budget d) s) [].

(** The node of [s] in the final table. *)
Definition final_node (order : set_order) (d : dict pyset) (s : string) : Node.t :=
  Node.Make ("SLIM::" ++ s) s (children_of order d s) (members_of order d s)
            (Some (aggv order d s)).

Definition final_table (order : set_order) (d : dict pyset) : dict Node.t :=
  map (fun s => (s, final_node order d s)) (slims d).

(** Every node of a tree, the tree itself first. *)
Fixpoint subnodes (n : tree_node) : list tree_node :=
  match n with
  | TreeNode _ _ _ _ ch => n :: flat_map subnodes ch
  end.

(** The slim nodes of an output tree: everything below the synthetic root. *)
Definition slim_nodes (t : tree_node) : list tree_node :=
  flat_map subnodes (tn_children t).

(** Case-insensitive order, and lists sorted by it. *)
Definition ci_le (x y : string) : Prop := String.leb (casefold x) (casefold y) = true.

Definition ci_sorted (l : list string) : Prop := StronglySorted ci_le l.

(** The slim membership index of a catalog. *)
Definition catalog_index (bios : list biosample_type) : dict pyset :=
  slim_buckets (load_terms bios).

(** [n] is the packed node of slim [s]. *)
Definition packed (order : set_order) (d : dict pyset) (s : string) (n : tree_node) : Prop :=
  exists fuel, pack (final_table order d) fuel s = Some n.

(** Following the recorded parent [n] times from [t]. *)
Fixpoint ancestor (order : set_order) (d : dict pyset) (n : nat) (t : string) : option string :=
  match n with
  | O => Some t
  | S n' =>
      match parent_of order d t with
      | Some q => ancestor order d n' q
      | None => None
      end
  end.

(** The labels of all nodes of a list of trees. *)
Definition labels (ts : list tree_node) : list string :=
  map tn_label (flat_map subnodes ts).

(** The exclusion rule of the loader, as the specification words it: the
    normalised classification is non-empty and not allowed, or the name
    is missing or empty. *)
Definition excluded (b : biosample_type) : Prop :=
  (norm_classification b <> "" /\ ~ In (norm_classification b) allowed_classes) \/
  term_name b = None \/ term_name b = Some "".

(** The list part of the output contract: the fixed root, the ids built
    from the labels, the sorted duplicate-free member lists and the sorted
    children at every level. *)
Definition shape_lists (t : tree_node) : Prop :=
  tn_id t = "SLIM::ROOT" /\ tn_label t = "Cell types" /\
  (forall n, In n (slim_nodes t) -> tn_id n = ("SLIM::" ++ tn_label n)%string) /\
  forall n, In n (subnodes t) ->
    ci_sorted (tn_members n) /\ NoDup (tn_members n) /\
    ci_sorted (tn_aggregate_members n) /\ NoDup (tn_aggregate_members n) /\
    ci_sorted (map tn_label (tn_children n)).

(** The output contract with ids unique across all nodes. *)
Definition output_shape (t : tree_node) : Prop :=
  shape_lists t /\ NoDup (map tn_id (subnodes t)).

(** The output contract with ids unique across the slim nodes, and across
    all nodes when no slim node is labelled [ROOT]. *)
Definition output_shape_slims (t : tree_node) : Prop :=
  shape_lists t /\ NoDup (map tn_id (slim_nodes t)) /\
  ((forall n, In n (slim_nodes t) -> tn_label n <> "ROOT") ->
   NoDup (map tn_id (subnodes t))).

(** The name of [b] appears in no member list of the tree. *)
Definition name_absent (name : string) (t : tree_node) : Prop :=
  forall n, In n (subnodes t) ->
    ~ In name (tn_members n) /\ ~ In name (tn_aggregate_members n).

(** [b] passes the filter and lists no slim. *)
Definition slimless (b : biosample_type) : Prop :=
  ~ excluded b /\ or_else (cell_slims b) [] = [].

(** The claim about records without slims, read record by record. *)
Definition slimless_names_absent (order : set_order) (bios : list biosample_type) : Prop :=
  forall b name r,
    In b bios -> slimless b -> term_name b = Some name ->
    get_cell_tree order bios = Some r -> name_absent name (tree r).

(** [casefold] separates the strings of [l]. *)
Definition casefold_injective_on (l : list string) : Prop :=
  forall x y, In x l -> In y l -> casefold x = casefold y -> x = y.

(** The names of the terms loaded from a catalog. *)
Definition catalog_names (bios : list biosample_type) : list string :=
  map et_term_name (load_terms bios).

(** The order of [by_count]: larger counts first, equal counts by the
    lower-cased key. *)
Definition rank_le (a b : string * Z) : Prop :=
  (snd b < snd a)%Z \/ (snd a = snd b /\ String.leb (lower (fst a)) (lower (fst b)) = true).

(** The URLs of the two facet searches. *)
Definition experiment_url (urlencode : list (string * string) -> string) : string :=
  (BASE ++ "?" ++ urlencode experiment_params)%string.

Definition file_url (urlencode : list (string * string) -> string) : string :=
  (BASE ++ "?" ++ urlencode file_params)%string.



(** A computation makes between [lo] and [hi] requests and keeps the log
    it was given. *)
Definition makes {A} (m : io A) (lo hi : nat) : Prop :=
  forall log, exists reqs,
    snd (m log) = log ++ reqs /\ lo <= List.length reqs <= hi.

(** The empty tree. *)
Definition empty_tree : tree_node := TreeNode "SLIM::ROOT" "Cell types" [] [] [].

(** ** Sample catalogs *)

Definition record (cls name : string) (sl : list string) : biosample_type :=
  BiosampleType (Some cls) (Some name) (Some sl).

(** [x = {A}] below [y = {A, B}]. *)
Definition chain_catalog : list biosample_type :=
  [record "cell" "A" ["x"; "y"]; record " Cell Line " "B" ["y"]].

(** [x = {A, B}] below both [y1] and [Y2], which are [{A, B, C}]. *)
Definition tie_catalog : list biosample_type :=
  [record "cell" "A" ["x"; "Y2"; "y1"]; record "cell" "B" ["x"; "Y2"; "y1"];
   record "cell" "C" ["Y2"; "y1"]].

(** A slim that carries the label of the synthetic root. *)
Definition root_label_catalog : list biosample_type :=
  [record "cell" "A" ["ROOT"]].

(** Two records of one name, the first without slims. *)
Definition same_name_catalog : list biosample_type :=
  [record "cell" "A" []; record "cell" "A" ["x"]].

(** Two names that differ in case only, in one slim. *)
Definition case_clash_catalog : list biosample_type :=
  [record "cell" "A" ["x"]; record "cell" "a" ["x"]].

(** [x = {A}] below the slim with the empty label, which is [{A, B}]. *)
Definition empty_label_catalog : list biosample_type :=
  [record "cell" "A" ["x"; ""]; record "cell" "B" [""]].


(** A query string without escaping, enough to tell the sample requests
    apart. *)
Definition sample_urlencode (params : list (string * string)) : string :=
  String.concat "&" (map (fun kv => (fst kv ++ "=" ++ snd kv)%string) params).

Definition sample_search : payload :=
  Payload (Some [Facet (Some "assay_title")
                       (Some [FacetTerm (Some "ChIP-seq") (Some 7%Z);
                              FacetTerm (Some "") (Some 9%Z);
                              FacetTerm (Some "ATAC-seq") None;
                              FacetTerm None (Some 3%Z);
                              FacetTerm (Some "DNase-seq") (Some 7%Z)]);
                 Facet (Some "target.label")
                       (Some [FacetTerm (Some "CTCF") (Some 2%Z);
                              FacetTerm (Some "POLR2A") (Some 5%Z)]);
                 Facet (Some "assay_title")
                       (Some [FacetTerm (Some "shadowed") (Some 1%Z)]);
                 Facet (Some "assembly")
                       (Some [FacetTerm (Some "hg19") (Some 4%Z);
                              FacetTerm (Some "GRCh38") (Some 4%Z)]);
                 Facet (Some "biosample_ontology.term_name")
                       (Some [FacetTerm (Some "liver") (Some 1%Z);
                              FacetTerm (Some "HepG2") (Some 8%Z)])])
          None.

(** The same reply with the assembly terms in the other order. *)
Definition sample_search_swapped : payload :=
  Payload (Some [Facet (Some "assembly")
                       (Some [FacetTerm (Some "GRCh38") (Some 4%Z);
                              FacetTerm (Some "hg19") (Some 4%Z)])])
          None.

Definition sample_graph : payload := Payload None (Some chain_catalog).

(** A reply without facets and without a graph. *)
Definition bare_reply : payload := Payload None None.

Definition sample_server (log : request_log) (url : string) : outcome payload :=
  if url =? biosample_types_url then Returned sample_graph else Returned sample_search.

Definition swapped_server (log : request_log) (url : string) : outcome payload :=
  Returned sample_search_swapped.

Definition bare_server (log : request_log) (url : string) : outcome payload :=
  Returned bare_reply.

(** A server that answers the searches and fails on the catalog. *)
Definition flaky_server (log : request_log) (url : string) : outcome payload :=
  if url =? biosample_types_url then Raised "503 Server Error" else Returned sample_search.

(** * Properties *)

(** ** Truth values *)

Lemma truthy_spec (s : string) : truthy s = true <-> s <> "".
Proof. unfold truthy. now rewrite negb_true_iff, String.eqb_neq. Qed.

Lemma truthy_false (s : string) : truthy s = false <-> s = "".
Proof. unfold truthy. now rewrite negb_false_iff, String.eqb_eq. Qed.

(** ** The order on strings and on keys *)

Lemma string_compare_refl (a : string) : String.compare a a = Eq.
Proof.
  induction a as [|c a IH]; simpl; [reflexivity|].
  unfold Ascii.compare. now rewrite N.compare_refl.
Qed.

Lemma string_compare_lt_trans (a b c : string) :
  String.compare a b = Lt -> String.compare b c = Lt -> String.compare a c = Lt.
Proof.
  revert b c. induction a as [|x a IH]; intros [|y b] [|z c]; simpl;
    try discriminate; try reflexivity.
  destruct (Ascii.compare x y) eqn:Hxy; try discriminate;
    destruct (Ascii.compare y z) eqn:Hyz; try discriminate; intros H1 H2.
  - apply Ascii.compare_eq_iff in Hxy, Hyz. subst.
    unfold Ascii.compare. rewrite N.compare_refl. eauto.
  - apply Ascii.compare_eq_iff in Hxy. subst. now rewrite Hyz.
  - apply Ascii.compare_eq_iff in Hyz. subst. now rewrite Hxy.
  - unfold Ascii.compare in *. rewrite N.compare_lt_iff in *.
    assert (Hxz : (N_of_ascii x < N_of_ascii z)%N) by lia.
    rewrite <- N.compare_lt_iff in Hxz. now rewrite Hxz.
Qed.

Lemma string_ltb_irrefl (a : string) : String.ltb a a = false.
Proof. unfold String.ltb. now rewrite string_compare_refl. Qed.

Lemma string_ltb_asym (a b : string) :
  String.ltb a b = true -> String.ltb b a = false.
Proof.
  unfold String.ltb. rewrite (String.compare_antisym a b).
  destruct (String.compare b a); simpl; congruence.
Qed.

Lemma string_ltb_trans (a b c : string) :
  String.ltb a b = true -> String.ltb b c = true -> String.ltb a c = true.
Proof.
  unfold String.ltb. intros H1 H2.
  destruct (String.compare a b) eqn:E1; try discriminate.
  destruct (String.compare b c) eqn:E2; try discriminate.
  now rewrite (string_compare_lt_trans _ _ _ E1 E2).
Qed.

(** Two strings neither of which is below the other are equal. *)
Lemma string_ltb_total (a b : string) :
  String.ltb a b = false -> String.ltb b a = false -> a = b.
Proof.
  unfold String.ltb. rewrite (String.compare_antisym a b).
  destruct (String.compare b a) eqn:E; simpl; try discriminate.
  intros _ _. symmetry. now apply String.compare_eq_iff.
Qed.

Lemma string_le_trans (a b c : string) :
  String.ltb b a = false -> String.ltb c b = false -> String.ltb c a = false.
Proof.
  intros H1 H2. destruct (String.ltb c a) eqn:E; [|reflexivity].
  destruct (String.ltb b a) eqn:E1; [discriminate|].
  destruct (String.ltb a b) eqn:E2.
  - rewrite (string_ltb_trans _ _ _ E E2) in H2. discriminate.
  - rewrite (string_ltb_total _ _ E2 E1) in E. congruence.
Qed.

Lemma string_ltb_leb (a b : string) :
  String.ltb b a = false <-> String.leb a b = true.
Proof.
  unfold String.ltb, String.leb. rewrite (String.compare_antisym a b).
  destruct (String.compare b a); simpl; intuition congruence.
Qed.

Lemma key_ltb_asym (a b : Z * string) : key_ltb a b = true -> key_ltb b a = false.
Proof.
  unfold key_ltb. destruct a as [n s], b as [m t]; simpl. intros H.
  apply orb_true_iff in H. destruct H as [H|H].
  - apply Z.ltb_lt in H. apply orb_false_iff. split.
    + apply Z.ltb_ge. lia.
    + apply andb_false_iff. left. apply Z.eqb_neq. lia.
  - apply andb_true_iff in H. destruct H as [H1 H2].
    apply Z.eqb_eq in H1. subst. rewrite Z.ltb_irrefl, Z.eqb_refl. simpl.
    now apply string_ltb_asym.
Qed.

Lemma key_le_trans (a b c : Z * string) :
  key_ltb b a = false -> key_ltb c b = false -> key_ltb c a = false.
Proof.
  unfold key_ltb. destruct a as [n s], b as [m t], c as [k u]; simpl.
  intros H1 H2. apply orb_false_iff in H1, H2.
  destruct H1 as [H1 H1'], H2 as [H2 H2'].
  apply Z.ltb_ge in H1, H2. apply orb_false_iff. split.
  - apply Z.ltb_ge. lia.
  - destruct (Z.eqb_spec k n) as [->|]; [simpl|reflexivity].
    assert (m = n) by lia. subst.
    rewrite Z.eqb_refl in H1', H2'. simpl in *.
    eapply string_le_trans; eassumption.
Qed.

(** What [key_ltb] being false means: the order of Python tuples. *)
Lemma key_le_spec (n m : Z) (s t : string) :
  key_ltb (m, t) (n, s) = false <->
  (n < m)%Z \/ (n = m /\ String.leb s t = true).
Proof.
  unfold key_ltb; simpl. rewrite orb_false_iff, andb_false_iff,
    Z.ltb_ge, Z.eqb_neq, string_ltb_leb.
  split.
  - intros [H1 H2]. destruct (Z.eq_dec n m); [right|left; lia].
    split; [assumption|]. destruct H2; [lia|assumption].
  - intros [H|[-> H]]; (split; [lia|]); auto. left; lia.
Qed.

(** ** [sorted] *)

Section SortedFacts.
Context {A K : Type} (key : A -> K) (ltb : K -> K -> bool).

Local Abbreviation kle := (key_le key ltb).

Lemma insert_by_perm (x : A) (l : list A) :
  Permutation (insert_by key ltb x l) (x :: l).
Proof.
  induction l as [|y l IH]; simpl; [reflexivity|].
  destruct (ltb (key y) (key x)); [|reflexivity].
  rewrite IH. apply perm_swap.
Qed.

Lemma sorted_perm (l : list A) : Permutation (sorted key ltb l) l.
Proof.
  induction l as [|x l IH]; simpl; [reflexivity|].
  rewrite insert_by_perm. now constructor.
Qed.

Lemma sorted_In (l : list A) (x : A) : In x (sorted key ltb l) <-> In x l.
Proof.
  split; apply Permutation_in; [|symmetry]; apply sorted_perm.
Qed.

Lemma sorted_NoDup (l : list A) : NoDup l -> NoDup (sorted key ltb l).
Proof.
  intros H. eapply Permutation_NoDup; [symmetry; apply sorted_perm|assumption].
Qed.

Lemma sorted_length (l : list A) : List.length (sorted key ltb l) = List.length l.
Proof. apply Permutation_length, sorted_perm. Qed.

Lemma sorted_nil (l : list A) : sorted key ltb l = [] -> l = [].
Proof.
  intros H. pose proof (sorted_perm l) as P. rewrite H in P.
  now apply Permutation_nil.
Qed.

Hypothesis ltb_asym : forall a b, ltb a b = true -> ltb b a = false.
Hypothesis le_trans :
  forall a b c, ltb b a = false -> ltb c b = false -> ltb c a = false.

Lemma insert_by_sorted (x : A) (l : list A) :
  StronglySorted kle l -> StronglySorted kle (insert_by key ltb x l).
Proof.
  induction 1 as [|y l Hs IH Hy]; simpl.
  - constructor; [constructor|constructor].
  - destruct (ltb (key y) (key x)) eqn:E.
    + constructor; [assumption|].
      rewrite Forall_forall in *. intros z Hz.
      apply (Permutation_in _ (insert_by_perm x l)) in Hz.
      destruct Hz as [<-|Hz]; [|now apply Hy].
      unfold key_le. now apply ltb_asym.
    + constructor; [now constructor|].
      constructor; [exact E|].
      rewrite Forall_forall in *. intros z Hz.
      unfold key_le in *. eapply le_trans; [exact E|now apply Hy].
Qed.

Lemma sorted_StronglySorted (l : list A) : StronglySorted kle (sorted key ltb l).
Proof.
  induction l as [|x l IH]; simpl; [constructor|].
  now apply insert_by_sorted.
Qed.

(** The head of a sorted list is one of its elements of least key. *)
Lemma sorted_head_least (l : list A) (p : A) (r : list A) :
  sorted key ltb l = p :: r -> In p l /\ forall q, In q l -> kle p q.
Proof.
  intros H. split.
  - apply sorted_In. rewrite H. now left.
  - intros q Hq. apply sorted_In in Hq. rewrite H in Hq.
    pose proof (sorted_StronglySorted l) as Hs. rewrite H in Hs.
    inversion Hs as [|? ? _ Hall]; subst.
    destruct Hq as [<-|Hq].
    + unfold key_le. destruct (ltb (key p) (key p)) eqn:E; [|reflexivity].
      now rewrite (ltb_asym _ _ E) in E.
    + rewrite Forall_forall in Hall. now apply Hall.
Qed.
(** Sorting is blind to the order of its input when no two elements
    tie on the key. *)
Lemma StronglySorted_perm_eq (l1 l2 : list A) :
  (forall x y, In x l1 -> In y l1 -> kle x y -> kle y x -> x = y) ->
  StronglySorted kle l1 -> StronglySorted kle l2 -> Permutation l1 l2 -> l1 = l2.
Proof.
  revert l2. induction l1 as [|x l1 IH]; intros l2 Hanti H1 H2 Hp.
  - apply Permutation_nil in Hp. now subst.
  - destruct l2 as [|y l2].
    + symmetry in Hp. now apply Permutation_nil_cons in Hp.
    + inversion H1 as [|? ? H1' Hx]; subst. inversion H2 as [|? ? H2' Hy]; subst.
      rewrite Forall_forall in Hx, Hy.
      assert (Exy : x = y).
      { assert (Hxin : In x (y :: l2)).
        { apply (Permutation_in _ Hp). now left. }
        assert (Hyin : In y (x :: l1)).
        { apply (Permutation_in _ (Permutation_sym Hp)). now left. }
        destruct Hxin as [->|Hxin]; [reflexivity|].
        destruct Hyin as [->|Hyin]; [reflexivity|].
        apply Hanti; [now left|now right|now apply Hx|now apply Hy]. }
      subst y. f_equal. apply IH; try assumption.
      * intros a b Ha Hb. apply Hanti; now right.
      * now apply Permutation_cons_inv in Hp.
Qed.

Lemma sorted_perm_eq (l1 l2 : list A) :
  (forall x y, In x l1 -> In y l1 -> kle x y -> kle y x -> x = y) ->
  Permutation l1 l2 -> sorted key ltb l1 = sorted key ltb l2.
Proof.
  intros Hanti Hp. apply StronglySorted_perm_eq.
  - intros x y Hx Hy. apply (proj1 (sorted_In _ _)) in Hx, Hy. now apply Hanti.
  - apply sorted_StronglySorted.
  - apply sorted_StronglySorted.
  - rewrite !sorted_perm. exact Hp.
Qed.
End SortedFacts.

(** ** Sets *)

Lemma set_mem_In (x : string) (s : pyset) : set_mem x s = true <-> In x s.
Proof.
  unfold set_mem. rewrite existsb_exists. split.
  - intros [y [Hy E]]. apply String.eqb_eq in E. now subst.
  - intros H. exists x. split; [assumption|apply String.eqb_refl].
Qed.

Lemma set_mem_false (x : string) (s : pyset) : set_mem x s = false <-> ~ In x s.
Proof.
  rewrite <- set_mem_In. destruct (set_mem x s); intuition congruence.
Qed.

Lemma set_add_In (x y : string) (s : pyset) :
  In y (set_add x s) <-> y = x \/ In y s.
Proof.
  unfold set_add. destruct (set_mem x s) eqn:E.
  - apply set_mem_In in E. intuition (subst; auto).
  - rewrite in_app_iff. simpl. intuition.
Qed.

Lemma set_add_NoDup (x : string) (s : pyset) : NoDup s -> NoDup (set_add x s).
Proof.
  intros H. unfold set_add. destruct (set_mem x s) eqn:E; [assumption|].
  apply set_mem_false in E.
  apply NoDup_rev in H. rewrite <- (rev_involutive (s ++ [x])).
  apply NoDup_rev. rewrite rev_app_distr. simpl. constructor; [|assumption].
  now rewrite <- in_rev.
Qed.

Lemma set_add_not_nil (x : string) (s : pyset) : set_add x s <> [].
Proof.
  unfold set_add. destruct (set_mem x s) eqn:E.
  - apply set_mem_In in E. now destruct s.
  - now destruct s.
Qed.

Lemma set_update_In (s : pyset) (l : list string) (y : string) :
  In y (set_update s l) <-> In y s \/ In y l.
Proof.
  unfold set_update. revert s. induction l as [|x l IH]; intros s; simpl.
  - intuition.
  - rewrite IH, set_add_In. intuition.
Qed.

Lemma set_update_NoDup (s : pyset) (l : list string) :
  NoDup s -> NoDup (set_update s l).
Proof.
  unfold set_update. revert s. induction l as [|x l IH]; intros s H; simpl.
  - assumption.
  - apply IH. now apply set_add_NoDup.
Qed.

Lemma set_of_list_In (l : list string) (y : string) : In y (set_of_list l) <-> In y l.
Proof. unfold set_of_list. rewrite set_update_In. simpl. intuition. Qed.

Lemma set_of_list_NoDup (l : list string) : NoDup (set_of_list l).
Proof. apply set_update_NoDup. constructor. Qed.

Lemma issubset_incl (a b : pyset) : issubset a b = true <-> incl a b.
Proof.
  unfold issubset, incl. rewrite forallb_forall.
  split; intros H x Hx; apply set_mem_In; auto.
Qed.

(** On duplicate-free lists the comparison of the interpreter is the
    strict inclusion of sets. *)
Lemma set_lt_spec (a b : pyset) :
  NoDup a -> NoDup b -> (set_lt a b = true <-> strict_subset a b).
Proof.
  intros Ha Hb. unfold set_lt, strict_subset.
  rewrite andb_true_iff, Nat.ltb_lt, issubset_incl. split.
  - intros [Hlen Hinc]. split; [assumption|]. intros Hba.
    pose proof (NoDup_incl_length Hb Hba). lia.
  - intros [Hinc Hn]. split; [|assumption].
    pose proof (NoDup_incl_length Ha Hinc) as Hle.
    destruct (Nat.eq_dec (List.length a) (List.length b)) as [E|E]; [|lia].
    exfalso. apply Hn. apply NoDup_length_incl; [assumption|lia|assumption].
Qed.

Lemma set_lt_length (a b : pyset) :
  set_lt a b = true -> List.length a < List.length b.
Proof. unfold set_lt. rewrite andb_true_iff, Nat.ltb_lt. tauto. Qed.

Lemma strict_subset_irrefl (a : pyset) : ~ strict_subset a a.
Proof. intros [H1 H2]. auto. Qed.

Lemma strict_subset_trans (a b c : pyset) :
  strict_subset a b -> strict_subset b c -> strict_subset a c.
Proof.
  intros [H1 H2] [H3 H4]. split.
  - eapply incl_tran; eassumption.
  - intros H. apply H4. eapply incl_tran; eassumption.
Qed.

(** ** Dictionaries *)

Lemma dict_get_In {V} (d : dict V) (k : string) (v : V) :
  dict_get d k = Some v -> In (k, v) d.
Proof.
  induction d as [|[k' v'] d IH]; simpl; [discriminate|].
  destruct (String.eqb_spec k' k) as [->|Hne].
  - intros [= ->]. now left.
  - intros H. right. auto.
Qed.

Lemma dict_get_None {V} (d : dict V) (k : string) :
  dict_get d k = None <-> ~ In k (keys d).
Proof.
  induction d as [|[k' v'] d IH]; simpl; [intuition|].
  destruct (String.eqb_spec k' k) as [->|Hne].
  - split; [discriminate|]. intros H. exfalso. apply H. now left.
  - rewrite IH. intuition.
Qed.

Lemma dict_get_key {V} (d : dict V) (k : string) :
  In k (keys d) -> exists v, dict_get d k = Some v.
Proof.
  intros H. destruct (dict_get d k) eqn:E; [eauto|].
  apply dict_get_None in E. contradiction.
Qed.

Lemma dict_get_Some_key {V} (d : dict V) (k : string) (v : V) :
  dict_get d k = Some v -> In k (keys d).
Proof.
  intros H. apply dict_get_In in H. unfold keys.
  change k with (fst (k, v)). now apply in_map.
Qed.

Lemma In_dict_get {V} (d : dict V) (k : string) (v : V) :
  NoDup (keys d) -> In (k, v) d -> dict_get d k = Some v.
Proof.
  induction d as [|[k' v'] d IH]; simpl; [contradiction|].
  intros Hnd [H|H].
  - inversion H; subst. now rewrite String.eqb_refl.
  - inversion Hnd as [|? ? Hni Hnd']; subst.
    destruct (String.eqb_spec k' k) as [->|Hne]; [|auto].
    exfalso. apply Hni. unfold keys. change k with (fst (k, v)). now apply in_map.
Qed.

Lemma dict_get_map {V} (f : string -> V) (l : list string) (k : string) :
  dict_get (map (fun s => (s, f s)) l) k = if set_mem k l then Some (f k) else None.
Proof.
  induction l as [|x l IH]; simpl; [reflexivity|].
  rewrite (String.eqb_sym k x).
  destruct (String.eqb_spec x k) as [->|Hne]; [reflexivity|exact IH].
Qed.

Lemma keys_map {V} (f : string -> V) (l : list string) :
  keys (map (fun s => (s, f s)) l) = l.
Proof. unfold keys. rewrite map_map. simpl. apply map_id. Qed.

(** Updating the entry of [k] in a table built over distinct keys. *)
Lemma dict_update_map {V} (f g : string -> V) (h : V -> V) (l : list string) (k : string) :
  NoDup l ->
  (forall s, In s l -> g s = if s =? k then h (f s) else f s) ->
  dict_update (map (fun s => (s, f s)) l) k h = map (fun s => (s, g s)) l.
Proof.
  induction l as [|x l IH]; intros Hnd Hg; simpl; [reflexivity|].
  inversion Hnd as [|? ? Hni Hnd']; subst.
  pose proof (Hg x (or_introl eq_refl)) as Hx.
  destruct (String.eqb_spec x k) as [->|Hne].
  - rewrite Hx. f_equal. apply map_ext_in. intros s Hs.
    rewrite (Hg s (or_intror Hs)).
    destruct (String.eqb_spec s k) as [->|]; [contradiction|reflexivity].
  - rewrite Hx. f_equal. apply IH; [assumption|].
    intros s Hs. apply Hg. now right.
Qed.

(** ** The loader and the slim buckets *)

Lemma setdefault_add_keys (d : dict pyset) (k x s : string) :
  In s (keys (setdefault_add d k x)) <-> s = k \/ In s (keys d).
Proof.
  induction d as [|[k' v] d IH]; simpl; [intuition|].
  destruct (String.eqb_spec k' k) as [->|Hne]; simpl.
  - intuition.
  - rewrite IH. intuition.
Qed.

Lemma setdefault_add_wf (d : dict pyset) (k x : string) :
  wf_index d -> wf_index (setdefault_add d k x).
Proof.
  unfold wf_index. induction d as [|[k' v] d IH]; simpl; intros [Hnd Hall].
  - split; [constructor; [intros []|constructor]|].
    constructor; [|constructor]. simpl. split; [|discriminate].
    constructor; [intros []|constructor].
  - inversion Hnd as [|? ? Hni Hnd']; subst.
    inversion Hall as [|? ? [Hv Hne] Hall']; subst. simpl in *.
    destruct (String.eqb_spec k' k) as [->|Hk]; simpl.
    + split; [now constructor|]. constructor; [|assumption]. simpl.
      split; [now apply set_add_NoDup|apply set_add_not_nil].
    + destruct (IH (conj Hnd' Hall')) as [IH1 IH2].
      split.
      * constructor; [|assumption]. fold (keys (setdefault_add d k x)).
        rewrite setdefault_add_keys. fold (keys d) in Hni. intuition.
      * constructor; [|assumption]. now split.
Qed.

Lemma setdefault_add_bucket (d : dict pyset) (k x s m : string) :
  In m (bucket (setdefault_add d k x) s) <-> In m (bucket d s) \/ (s = k /\ m = x).
Proof.
  unfold bucket. induction d as [|[k' v] d IH]; simpl.
  - destruct (String.eqb_spec k s) as [->|Hne]; simpl; intuition congruence.
  - destruct (String.eqb_spec k' k) as [->|Hk]; simpl.
    + destruct (String.eqb_spec k s) as [->|Hne]; simpl.
      * rewrite set_add_In. intuition.
      * intuition congruence.
    + destruct (String.eqb_spec k' s) as [->|Hne]; simpl.
      * intuition congruence.
      * exact IH.
Qed.

Lemma add_term_wf (d : dict pyset) (t : enc_term) : wf_index d -> wf_index (add_term d t).
Proof.
  unfold add_term. generalize (et_term_name t) as x.
  generalize (et_cell_slims t) as l. intros l x. revert d.
  induction l as [|k l IH]; intros d H; simpl; [assumption|].
  apply IH. now apply setdefault_add_wf.
Qed.

Lemma add_term_keys (d : dict pyset) (t : enc_term) (s : string) :
  In s (keys (add_term d t)) <-> In s (keys d) \/ In s (et_cell_slims t).
Proof.
  unfold add_term. generalize (et_term_name t) as x.
  generalize (et_cell_slims t) as l. intros l x. revert d.
  induction l as [|k l IH]; intros d; simpl; [intuition|].
  rewrite IH, setdefault_add_keys. intuition.
Qed.

Lemma add_term_bucket (d : dict pyset) (t : enc_term) (s m : string) :
  In m (bucket (add_term d t) s) <->
  In m (bucket d s) \/ (m = et_term_name t /\ In s (et_cell_slims t)).
Proof.
  unfold add_term. generalize (et_term_name t) as x.
  generalize (et_cell_slims t) as l. intros l x. revert d.
  induction l as [|k l IH]; intros d; simpl; [intuition|].
  rewrite IH, setdefault_add_bucket. intuition (subst; auto).
Qed.

Lemma fold_add_term_wf (ts : list enc_term) (d : dict pyset) :
  wf_index d -> wf_index (fold_left add_term ts d).
Proof.
  revert d. induction ts as [|t ts IH]; intros d H; simpl; [assumption|].
  apply IH. now apply add_term_wf.
Qed.

Lemma fold_add_term_keys (ts : list enc_term) (d : dict pyset) (s : string) :
  In s (keys (fold_left add_term ts d)) <->
  In s (keys d) \/ exists t, In t ts /\ In s (et_cell_slims t).
Proof.
  revert d. induction ts as [|t ts IH]; intros d; simpl.
  - split; [auto|]. intros [H|[t [[] _]]]. assumption.
  - rewrite IH, add_term_keys. split.
    + intros [[H|H]|[t' [H1 H2]]]; [now left| |].
      * right. exists t. auto.
      * right. exists t'. auto.
    + intros [H|[t' [[<-|H1] H2]]]; [tauto|tauto|].
      right. exists t'. auto.
Qed.

Lemma fold_add_term_bucket (ts : list enc_term) (d : dict pyset) (s m : string) :
  In m (bucket (fold_left add_term ts d) s) <->
  In m (bucket d s) \/
  exists t, In t ts /\ m = et_term_name t /\ In s (et_cell_slims t).
Proof.
  revert d. induction ts as [|t ts IH]; intros d; simpl.
  - split; [auto|]. intros [H|[t [[] _]]]. assumption.
  - rewrite IH, add_term_bucket. split.
    + intros [[H|[H1 H2]]|[t' [H1 H2]]]; [now left| |].
      * right. exists t. auto.
      * right. exists t'. auto.
    + intros [H|[t' [[<-|H1] H2]]]; [tauto|tauto|].
      right. exists t'. auto.
Qed.

Lemma filter_nonempty_id (d : dict pyset) :
  wf_index d ->
  filter (fun kv => match snd kv with [] => false | _ => true end) d = d.
Proof.
  intros [_ H]. induction H as [|[k v] d [_ Hv] _ IH]; simpl; [reflexivity|].
  simpl in Hv. destruct v; [congruence|]. now rewrite IH.
Qed.

Lemma wf_index_nil : wf_index [].
Proof. split; constructor. Qed.

(** The pruning pass of the builder never removes a bucket. *)
Lemma slim_buckets_raw (ts : list enc_term) :
  slim_buckets ts = fold_left add_term ts [].
Proof. apply filter_nonempty_id, fold_add_term_wf, wf_index_nil. Qed.

Lemma slim_buckets_wf (ts : list enc_term) : wf_index (slim_buckets ts).
Proof. rewrite slim_buckets_raw. apply fold_add_term_wf, wf_index_nil. Qed.

(** The slims of the index are the slims some term carries. *)
Lemma slim_buckets_keys (ts : list enc_term) (s : string) :
  In s (keys (slim_buckets ts)) <-> exists t, In t ts /\ In s (et_cell_slims t).
Proof.
  rewrite slim_buckets_raw, fold_add_term_keys. simpl. intuition.
Qed.

(** The members of a slim are the names of the terms that carry it. *)
Lemma slim_buckets_members (ts : list enc_term) (s m : string) :
  In m (bucket (slim_buckets ts) s) <->
  exists t, In t ts /\ m = et_term_name t /\ In s (et_cell_slims t).
Proof.
  rewrite slim_buckets_raw, fold_add_term_bucket. unfold bucket at 1. simpl.
  intuition.
Qed.

(** A term without slims leaves the index as it is. *)
Lemma slim_buckets_skip (l1 l2 : list enc_term) (name : string) :
  slim_buckets (l1 ++ EncTerm name [] :: l2) = slim_buckets (l1 ++ l2).
Proof.
  unfold slim_buckets. now rewrite !fold_left_app.
Qed.

Lemma load_terms_app (l1 l2 : list biosample_type) :
  load_terms (l1 ++ l2) = load_terms l1 ++ load_terms l2.
Proof.
  induction l1 as [|b l1 IH]; [reflexivity|]. cbn [app load_terms].
  destruct (truthy (norm_classification b) &&
            negb (set_mem (norm_classification b) allowed_classes)); [exact IH|].
  destruct (term_name b) as [name|]; [|exact IH].
  destruct (truthy name); [|exact IH]. cbn [app]. now rewrite IH.
Qed.

(** ** Candidates, minimal candidates and the parent chosen *)

Lemma exists_least {A} (f : A -> nat) (l : list A) :
  l <> [] -> exists x, In x l /\ forall y, In y l -> f x <= f y.
Proof.
  induction l as [|a l IH]; [congruence|]. intros _.
  destruct l as [|b l].
  - exists a. split; [now left|]. intros y [<-|[]]. lia.
  - destruct IH as [x [Hx Hmin]]; [discriminate|].
    destruct (le_lt_dec (f a) (f x)).
    + exists a. split; [now left|]. intros y [<-|Hy]; [lia|].
      specialize (Hmin y Hy). lia.
    + exists x. split; [now right|]. intros y [<-|Hy]; [lia|auto].
Qed.

Lemma exists_greatest {A} (f : A -> nat) (l : list A) :
  l <> [] -> exists x, In x l /\ forall y, In y l -> f y <= f x.
Proof.
  induction l as [|a l IH]; [congruence|]. intros _.
  destruct l as [|b l].
  - exists a. split; [now left|]. intros y [<-|[]]. lia.
  - destruct IH as [x [Hx Hmax]]; [discriminate|].
    destruct (le_lt_dec (f x) (f a)).
    + exists a. split; [now left|]. intros y [<-|Hy]; [lia|].
      specialize (Hmax y Hy). lia.
    + exists x. split; [now right|]. intros y [<-|Hy]; [lia|auto].
Qed.

Section ParentFacts.
Variables (order : set_order) (d : dict pyset).
Hypothesis Hwf : wf_index d.

Lemma getitem_NoDup (s : string) : NoDup (getitem d s).
Proof.
  unfold getitem. destruct (dict_get d s) as [v|] eqn:E; simpl; [|constructor].
  apply dict_get_In in E. destruct Hwf as [_ H].
  rewrite Forall_forall in H. now destruct (H _ E).
Qed.

(** Every key the builder looks up is bound to a non-empty bucket. *)
Lemma getitem_key (s : string) :
  In s (slims d) -> exists v, dict_get d s = Some v /\ getitem d s = v /\ v <> [].
Proof.
  intros H. destruct (dict_get_key d s H) as [v E].
  exists v. unfold getitem. rewrite E. repeat split.
  apply dict_get_In in E. destruct Hwf as [_ Hall].
  rewrite Forall_forall in Hall. now destruct (Hall _ E).
Qed.

Lemma slims_NoDup : NoDup (slims d).
Proof. exact (proj1 Hwf). Qed.

Lemma set_lt_getitem (a b : string) :
  set_lt (getitem d a) (getitem d b) = true <->
  strict_subset (getitem d a) (getitem d b).
Proof. apply set_lt_spec; apply getitem_NoDup. Qed.

Lemma strict_subset_sizes (a b : string) :
  strict_subset (getitem d a) (getitem d b) -> sizes d a < sizes d b.
Proof.
  intros H. apply set_lt_getitem in H. now apply set_lt_length in H.
Qed.

Lemma candidates_spec (a b : string) :
  In b (candidates d a) <-> is_candidate d a b.
Proof.
  unfold candidates, is_candidate. rewrite filter_In, andb_true_iff,
    negb_true_iff, String.eqb_neq, set_lt_getitem. intuition.
Qed.

Lemma minimal_of_spec (cand : list string) (x : string) :
  In x (minimal_of order d cand) <->
  In x cand /\
  forall y, In y cand -> ~ strict_subset (getitem d y) (getitem d x).
Proof.
  unfold minimal_of. rewrite filter_In, negb_true_iff.
  assert (Hin : In x (order cand) <-> In x cand).
  { split; apply Permutation_in; [|symmetry]; apply iter_perm. }
  rewrite Hin. split; intros [Hx H]; (split; [assumption|]).
  - intros y Hy Hs.
    assert (E : existsb (fun y => negb (x =? y) && set_gt (getitem d x) (getitem d y)) cand = true).
    { apply existsb_exists. exists y. split; [assumption|].
      apply andb_true_iff. split.
      - apply negb_true_iff, String.eqb_neq. intros ->.
        now apply strict_subset_irrefl in Hs.
      - unfold set_gt. now apply set_lt_getitem. }
    congruence.
  - destruct (existsb _ cand) eqn:E; [|reflexivity]. exfalso.
    apply existsb_exists in E. destruct E as [y [Hy E]].
    apply andb_true_iff in E. destruct E as [_ E].
    unfold set_gt in E. apply set_lt_getitem in E. exact (H y Hy E).
Qed.

Lemma minimal_candidate_spec (a x : string) :
  In x (minimal_of order d (candidates d a)) <-> is_minimal_candidate d a x.
Proof.
  rewrite minimal_of_spec. unfold is_minimal_candidate.
  rewrite candidates_spec. split; intros [H1 H2]; (split; [assumption|]);
    intros y Hy; apply H2; now apply candidates_spec.
Qed.

(** A non-empty candidate list has a minimal element: one of least size. *)
Lemma minimal_of_nonempty (cand : list string) :
  cand <> [] -> minimal_of order d cand <> [].
Proof.
  intros Hne. destruct (exists_least (sizes d) cand Hne) as [x [Hx Hmin]].
  assert (H : In x (minimal_of order d cand)).
  { apply minimal_of_spec. split; [assumption|].
    intros y Hy Hs. apply strict_subset_sizes in Hs.
    specialize (Hmin y Hy). lia. }
  intros E. now rewrite E in H.
Qed.

Lemma parent_of_None (a : string) :
  parent_of order d a = None <-> candidates d a = [].
Proof.
  unfold parent_of. destruct (candidates d a) as [|c cs] eqn:E; [tauto|].
  split; [|discriminate].
  destruct (sorted _ _ _) eqn:Es; [|discriminate]. intros _.
  apply sorted_nil in Es. exfalso.
  now apply (minimal_of_nonempty (c :: cs)).
Qed.

(** The parent chosen is a minimal candidate of least key. *)
Lemma parent_of_Some (a p : string) :
  parent_of order d a = Some p ->
  is_minimal_candidate d a p /\
  forall q, is_minimal_candidate d a q ->
            key_ltb (parent_key d q) (parent_key d p) = false.
Proof.
  unfold parent_of. destruct (candidates d a) as [|c cs] eqn:E; [discriminate|].
  rewrite <- E. destruct (sorted _ _ _) as [|p' r] eqn:Es; [discriminate|].
  intros [= ->].
  apply (sorted_head_least _ _ key_ltb_asym key_le_trans) in Es.
  destruct Es as [Hin Hmin]. split.
  - now apply minimal_candidate_spec.
  - intros q Hq. apply Hmin. now apply minimal_candidate_spec.
Qed.

Lemma parent_of_candidate (a p : string) :
  parent_of order d a = Some p ->
  In p (slims d) /\ p <> a /\ sizes d a < sizes d p.
Proof.
  intros H. apply parent_of_Some in H. destruct H as [[[H1 [H2 H3]] _] _].
  repeat split; try assumption. now apply strict_subset_sizes.
Qed.

Lemma parents_get (a : string) :
  dict_get (parents order d) a =
  if set_mem a (slims d) then Some (parent_of order d a) else None.
Proof. unfold parents. apply dict_get_map. Qed.

Lemma parents_Some (a p : string) :
  dict_get (parents order d) a = Some (Some p) <->
  In a (slims d) /\ parent_of order d a = Some p.
Proof.
  rewrite parents_get. destruct (set_mem a (slims d)) eqn:E.
  - apply set_mem_In in E. split; [intros [= ->]; auto|].
    intros [_ ->]. reflexivity.
  - apply set_mem_false in E. split; [discriminate|tauto].
Qed.
End ParentFacts.

(** ** The node table *)

Section NodeFacts.
Variables (order : set_order) (d : dict pyset).
Hypothesis Hwf : wf_index d.

Let node (ch : list string) (s : string) : Node.t :=
  Node.Make ("SLIM::" ++ s) s ch (members_of order d s) None.

Lemma fold_ensure_node (l : list string) (acc : dict Node.t) :
  NoDup (keys acc ++ l) ->
  fold_left (ensure_node order d) l acc = acc ++ map (fun s => (s, node [] s)) l.
Proof.
  revert acc. induction l as [|x l IH]; intros acc Hnd; simpl.
  - now rewrite app_nil_r.
  - assert (Hx : dict_get acc x = None).
    { apply dict_get_None. intros Hin.
      apply NoDup_remove_2 in Hnd. apply Hnd. apply in_or_app. now left. }
    unfold ensure_node at 2. rewrite Hx. rewrite IH.
    + now rewrite <- app_assoc.
    + unfold keys in *. rewrite map_app, <- app_assoc. exact Hnd.
Qed.

Lemma initial_nodes_eq :
  initial_nodes order d = map (fun s => (s, node [] s)) (slims d).
Proof.
  unfold initial_nodes. rewrite fold_ensure_node; [reflexivity|].
  simpl. now apply slims_NoDup.
Qed.

Lemma fold_link (l : list string) (ch : string -> list string) :
  fold_left (link) (map (fun a => (a, parent_of order d a)) l)
            (map (fun s => (s, node (ch s) s)) (slims d)) =
  map (fun s => (s, node (ch s ++ filter (child_edge order d s) l) s)) (slims d).
Proof.
  revert ch. induction l as [|a l IH]; intros ch; simpl.
  - apply map_ext. intros s. now rewrite app_nil_r.
  - unfold link at 2. simpl.
    destruct (parent_of order d a) as [q|] eqn:Hq.
    + destruct (truthy q && negb (a =? q)) eqn:Hc.
      * rewrite (dict_update_map (fun s => node (ch s) s)
                   (fun s => node (if s =? q then ch s ++ [a] else ch s) s)).
        -- rewrite IH. apply map_ext. intros s. unfold child_edge at 2.
           rewrite Hq, Hc, (String.eqb_sym q s). simpl.
           destruct (s =? q); [|reflexivity].
           now rewrite <- app_assoc.
        -- now apply slims_NoDup.
        -- intros s _. now destruct (s =? q).
      * rewrite IH. apply map_ext. intros s. unfold child_edge at 2.
        now rewrite Hq, Hc.
    + rewrite IH. apply map_ext. intros s. unfold child_edge at 2.
      now rewrite Hq.
Qed.

Lemma linked_nodes_eq :
  linked_nodes order d =
  map (fun s => (s, node (children_of order d s) s)) (slims d).
Proof.
  unfold linked_nodes, parents. rewrite initial_nodes_eq.
  apply (fold_link (slims d) (fun _ => [])).
Qed.

Lemma linked_nodes_get (s : string) :
  In s (slims d) ->
  dict_get (linked_nodes order d) s = Some (node (children_of order d s) s).
Proof.
  intros H. rewrite linked_nodes_eq, dict_get_map.
  apply set_mem_In in H. now rewrite H.
Qed.

Lemma node_children_linked (s : string) :
  In s (slims d) ->
  node_children (linked_nodes order d) s = children_of order d s.
Proof.
  intros H. unfold node_children. now rewrite linked_nodes_get.
Qed.

Lemma children_of_spec (p c : string) :
  In c (children_of order d p) <->
  In c (slims d) /\ parent_of order d c = Some p /\ truthy p = true.
Proof.
  unfold children_of, child_edge. rewrite filter_In. split.
  - intros [Hc H]. split; [assumption|].
    destruct (parent_of order d c) as [q|]; [|discriminate].
    apply andb_true_iff in H. destruct H as [H H3].
    apply andb_true_iff in H. destruct H as [H1 H2].
    apply String.eqb_eq in H3. subst. auto.
  - intros [Hc [Hp Ht]]. split; [assumption|]. rewrite Hp, Ht, String.eqb_refl.
    destruct (parent_of_candidate order d Hwf _ _ Hp) as [_ [Hne _]].
    apply not_eq_sym in Hne.
    apply String.eqb_neq in Hne. now rewrite Hne.
Qed.

Lemma children_of_NoDup (p : string) : NoDup (children_of order d p).
Proof. apply NoDup_filter. now apply slims_NoDup. Qed.

Lemma child_smaller (p c : string) :
  In c (children_of order d p) -> In p (slims d) /\ sizes d c < sizes d p.
Proof.
  intros H. apply children_of_spec in H. destruct H as [_ [H _]].
  destruct (parent_of_candidate order d Hwf _ _ H) as [H1 [_ H2]]. auto.
Qed.

Lemma all_children_spec (c : string) :
  In c (all_children order d) <-> exists p, In p (slims d) /\ In c (children_of order d p).
Proof.
  unfold all_children. rewrite set_of_list_In, in_flat_map.
  split; intros [p [Hp Hc]]; exists p; (split; [assumption|]).
  - now rewrite <- node_children_linked.
  - now rewrite node_children_linked.
Qed.

(** The roots are the slims without a parent. *)
Lemma computed_roots_spec (s : string) :
  In s (computed_roots order d) <-> In s (slims d) /\ parent_of order d s = None.
Proof.
  unfold computed_roots. rewrite filter_In. split.
  - intros [Hs H]. split; [assumption|].
    rewrite (parents_get order) in H.
    pose proof Hs as Hm. apply set_mem_In in Hm. rewrite Hm in H.
    now destruct (parent_of order d s).
  - intros [Hs Hp]. split; [assumption|].
    rewrite (parents_get order). pose proof Hs as Hm.
    apply set_mem_In in Hm. rewrite Hm, Hp.
    apply negb_true_iff, set_mem_false. intros Hc.
    apply all_children_spec in Hc. destruct Hc as [p [_ Hc]].
    apply children_of_spec in Hc. destruct Hc as [_ [Hc _]]. congruence.
Qed.

Lemma computed_roots_nonempty : slims d <> [] -> computed_roots order d <> [].
Proof.
  intros Hne. destruct (exists_greatest (sizes d) (slims d) Hne) as [m [Hm Hmax]].
  assert (H : In m (computed_roots order d)).
  { apply computed_roots_spec. split; [assumption|].
    apply (parent_of_None order d Hwf).
    destruct (candidates d m) as [|b bs] eqn:E; [reflexivity|]. exfalso.
    assert (Hb : In b (candidates d m)) by (rewrite E; now left).
    apply (candidates_spec d Hwf) in Hb. destruct Hb as [Hb [_ Hs]].
    apply (strict_subset_sizes d Hwf) in Hs. specialize (Hmax b Hb). lia. }
  intros E. now rewrite E in H.
Qed.

Lemma roots_eq : roots order d = computed_roots order d.
Proof.
  unfold roots. destruct (computed_roots order d) eqn:E; [|reflexivity].
  destruct (slims d) eqn:Es; [reflexivity|]. exfalso.
  apply computed_roots_nonempty; [|exact E]. now rewrite Es.
Qed.
End NodeFacts.

(** ** [mapM] *)

Lemma mapM_map {A B} (f : A -> option B) (g : A -> B) (l : list A) :
  (forall x, In x l -> f x = Some (g x)) -> mapM f l = Some (map g l).
Proof.
  induction l as [|x l IH]; intros H; simpl; [reflexivity|].
  rewrite (H x (or_introl eq_refl)). simpl.
  rewrite IH; [reflexivity|]. intros y Hy. apply H. now right.
Qed.

Lemma mapM_Forall2 {A B} (f : A -> option B) (l : list A) (ys : list B) :
  mapM f l = Some ys -> Forall2 (fun x y => f x = Some y) l ys.
Proof.
  revert ys. induction l as [|x l IH]; intros ys; simpl.
  - intros [= <-]. constructor.
  - destruct (f x) as [y|] eqn:E; simpl; [|discriminate].
    destruct (mapM f l) as [ys'|]; simpl; [|discriminate].
    intros [= <-]. constructor; auto.
Qed.

Lemma mapM_total {A B} (f : A -> option B) (l : list A) :
  (forall x, In x l -> exists y, f x = Some y) -> exists ys, mapM f l = Some ys.
Proof.
  induction l as [|x l IH]; intros H; simpl; [eauto|].
  destruct (H x (or_introl eq_refl)) as [y ->]. simpl.
  destruct IH as [ys ->]; [intros z Hz; apply H; now right|]. simpl. eauto.
Qed.

Lemma fold_seen_None {A} (f : A -> option (list string)) (cs : list A) :
  fold_left (fun acc c => seen <- acc ;; l <- f c ;; Some (set_update seen l)) cs None = None.
Proof. induction cs as [|c cs IH]; simpl; [reflexivity|exact IH]. Qed.

(** The accumulation loop of [agg], with the recursive calls factored out. *)
Lemma fold_seen_mapM {A} (f : A -> option (list string)) (cs : list A) (s0 : pyset) :
  fold_left (fun acc c => seen <- acc ;; l <- f c ;; Some (set_update seen l)) cs (Some s0) =
  (ls <- mapM f cs ;; Some (fold_left set_update ls s0)).
Proof.
  revert s0. induction cs as [|c cs IH]; intros s0; simpl; [reflexivity|].
  destruct (f c) as [l|]; simpl.
  - rewrite IH. now destruct (mapM f cs).
  - apply fold_seen_None.
Qed.

Lemma fold_set_update_In (ls : list (list string)) (s0 : pyset) (m : string) :
  In m (fold_left set_update ls s0) <-> In m s0 \/ exists l, In l ls /\ In m l.
Proof.
  revert s0. induction ls as [|l ls IH]; intros s0; simpl.
  - split; [auto|]. intros [H|[l [[] _]]]. assumption.
  - rewrite IH, set_update_In. split.
    + intros [[H|H]|[l' [H1 H2]]]; [now left| |].
      * right. exists l. auto.
      * right. exists l'. auto.
    + intros [H|[l' [[<-|H1] H2]]]; [tauto|tauto|].
      right. exists l'. auto.
Qed.

Lemma fold_set_update_NoDup (ls : list (list string)) (s0 : pyset) :
  NoDup s0 -> NoDup (fold_left set_update ls s0).
Proof.
  revert s0. induction ls as [|l ls IH]; intros s0 H; simpl; [assumption|].
  apply IH. now apply set_update_NoDup.
Qed.

(** ** Depth and the recursion of [agg] and [pack] *)

Lemma filter_true {A} (l : list A) : filter (fun _ => true) l = l.
Proof. induction l as [|x l IH]; simpl; [reflexivity|now rewrite IH]. Qed.

Lemma filter_length_lt {A} (f g : A -> bool) (l : list A) (x : A) :
  (forall y, f y = true -> g y = true) ->
  In x l -> f x = false -> g x = true ->
  List.length (filter f l) < List.length (filter g l).
Proof.
  intros Hfg Hx Hfx Hgx.
  assert (Hle : forall l', List.length (filter f l') <= List.length (filter g l')).
  { induction l' as [|y l' IH]; simpl; [lia|].
    destruct (f y) eqn:E.
    - rewrite (Hfg _ E). simpl. lia.
    - destruct (g y); simpl; lia. }
  induction l as [|y l IH]; simpl; [contradiction|].
  destruct Hx as [->|Hx].
  - rewrite Hfx, Hgx. simpl. specialize (Hle l). lia.
  - specialize (IH Hx). destruct (f y) eqn:E.
    + rewrite (Hfg _ E). simpl. lia.
    + destruct (g y); simpl; lia.
Qed.

Section DepthFacts.
Variables (order : set_order) (d : dict pyset).
Hypothesis Hwf : wf_index d.

Lemma rank_lt (c p : string) :
  In c (slims d) -> sizes d c < sizes d p -> rank d c < rank d p.
Proof.
  intros Hc Hlt. unfold rank. apply filter_length_lt with (x := c).
  - intros y Hy. apply Nat.ltb_lt in Hy. apply Nat.ltb_lt. lia.
  - assumption.
  - apply Nat.ltb_ge. lia.
  - now apply Nat.ltb_lt.
Qed.

Lemma rank_budget (s : string) : In s (slims d) -> rank d s < depth_budget d.
Proof.
  intros Hs. unfold rank, depth_budget.
  pose proof (filter_true (slims d)) as E.
  pose proof (filter_length_lt (fun t => (sizes d t <? sizes d s)%nat)
                (fun _ => true) (slims d) s (fun _ _ => eq_refl) Hs
                (Nat.ltb_irrefl _) eq_refl) as H.
  now rewrite E in H.
Qed.

Lemma child_rank (p c : string) :
  In c (children_of order d p) -> In c (slims d) /\ rank d c < rank d p.
Proof.
  intros H. pose proof (child_smaller order d Hwf _ _ H) as [_ Hlt].
  apply (children_of_spec order d Hwf) in H. destruct H as [Hc _].
  split; [assumption|]. now apply rank_lt.
Qed.

Lemma agg_S (fuel : nat) (s : string) :
  In s (slims d) ->
  agg order d (S fuel) s =
  (ls <- mapM (agg order d fuel) (children_of order d s) ;;
   Some (sorted casefold String.ltb
           (order (fold_left set_update ls (set_of_list (members_of order d s)))))).
Proof.
  intros Hs. simpl. rewrite (linked_nodes_get order d Hwf _ Hs). simpl.
  rewrite fold_seen_mapM. now destruct (mapM _ _).
Qed.

Lemma agg_total (fuel : nat) (s : string) :
  In s (slims d) -> rank d s < fuel -> exists l, agg order d fuel s = Some l.
Proof.
  revert s. induction fuel as [|fuel IH]; intros s Hs Hr; [lia|].
  rewrite agg_S by assumption.
  destruct (mapM_total (agg order d fuel) (children_of order d s)) as [ls ->].
  - intros c Hc. apply child_rank in Hc. destruct Hc as [Hc Hlt].
    apply IH; [assumption|lia].
  - simpl. eauto.
Qed.

Lemma agg_mono (fuel : nat) (s : string) (l : list string) :
  agg order d fuel s = Some l -> agg order d (S fuel) s = Some l.
Proof.
  revert s l. induction fuel as [|fuel IH]; intros s l; [discriminate|].
  destruct (dict_get (linked_nodes order d) s) as [nd|] eqn:E.
  - assert (Hs : In s (slims d)).
    { apply dict_get_Some_key in E. rewrite (linked_nodes_eq order d Hwf) in E.
      now rewrite keys_map in E. }
    rewrite (agg_S (S fuel)), (agg_S fuel) by assumption.
    destruct (mapM (agg order d fuel) _) as [ls|] eqn:Em; [|discriminate].
    cbn [bind]. intros H.
    assert (Em' : mapM (agg order d (S fuel)) (children_of order d s) = Some ls).
    { clear H. revert ls Em.
      induction (children_of order d s) as [|c cs IHc]; intros ls; [auto|].
      cbn [mapM]. destruct (agg order d fuel c) as [lc|] eqn:Ec; [|discriminate].
      rewrite (IH _ _ Ec). cbn [bind].
      destruct (mapM (agg order d fuel) cs) as [ls'|]; [|discriminate].
      now rewrite (IHc ls' eq_refl). }
    now rewrite Em'.
  - simpl. now rewrite E.
Qed.

Lemma agg_mono_le (f f' : nat) (s : string) (l : list string) :
  f <= f' -> agg order d f s = Some l -> agg order d f' s = Some l.
Proof.
  induction 1 as [|f' _ IH]; [auto|]. intros H. apply agg_mono. auto.
Qed.

(** With enough fuel [agg] returns, and always the same list. *)
Lemma agg_eq (fuel : nat) (s : string) :
  In s (slims d) -> rank d s < fuel -> agg order d fuel s = Some (aggv order d s).
Proof.
  intros Hs Hr. unfold aggv.
  destruct (agg_total (S (rank d s)) s Hs) as [l Hl]; [lia|].
  rewrite (agg_mono_le (S (rank d s)) fuel s l); [|lia|assumption].
  rewrite (agg_mono_le (S (rank d s)) (depth_budget d) s l); [reflexivity| |assumption].
  pose proof (rank_budget s Hs). lia.
Qed.

(** The equation of the aggregator. *)
Lemma aggv_unfold (s : string) :
  In s (slims d) ->
  aggv order d s =
  sorted casefold String.ltb
    (order (fold_left set_update (map (aggv order d) (children_of order d s))
                      (set_of_list (members_of order d s)))).
Proof.
  intros Hs. pose proof (agg_eq (S (rank d s)) s Hs (Nat.lt_succ_diag_r _)) as H.
  rewrite agg_S in H by assumption.
  rewrite (mapM_map _ (aggv order d)) in H.
  - simpl in H. now inversion H.
  - intros c Hc. apply child_rank in Hc. destruct Hc as [Hc Hlt].
    now apply agg_eq.
Qed.

Lemma fold_annotate (l : list string) (a : string -> option (list string)) :
  incl l (slims d) ->
  fold_left (annotate order d) l
    (Some (map (fun s => (s, Node.Make ("SLIM::" ++ s) s (children_of order d s)
                                       (members_of order d s) (a s))) (slims d))) =
  Some (map (fun s => (s, Node.Make ("SLIM::" ++ s) s (children_of order d s)
                                    (members_of order d s)
                                    (if set_mem s l then Some (aggv order d s) else a s)))
            (slims d)).
Proof.
  revert a. induction l as [|x l IH]; intros a Hl; simpl; [reflexivity|].
  assert (Hx : In x (slims d)) by (apply Hl; now left).
  rewrite (agg_eq _ _ Hx (rank_budget _ Hx)). simpl.
  rewrite (dict_update_map _
             (fun s => Node.Make ("SLIM::" ++ s) s (children_of order d s)
                         (members_of order d s)
                         (if s =? x then Some (aggv order d s) else a s))).
  - rewrite IH by (intros y Hy; apply Hl; now right).
    f_equal. apply map_ext. intros s. destruct (s =? x) eqn:E; simpl.
    + now destruct (set_mem s l).
    + reflexivity.
  - now apply slims_NoDup.
  - intros s _. destruct (String.eqb_spec s x) as [->|]; reflexivity.
Qed.

Lemma final_nodes_eq : final_nodes order d = Some (final_table order d).
Proof.
  unfold final_nodes. rewrite (linked_nodes_eq order d Hwf).
  etransitivity;
    [exact (fold_annotate (slims d) (fun _ => None) (incl_refl _))|].
  unfold final_table, final_node. apply f_equal. apply map_ext_in. intros s Hs.
  apply set_mem_In in Hs. now rewrite Hs.
Qed.

Lemma final_table_get (s : string) :
  dict_get (final_table order d) s =
  if set_mem s (slims d) then Some (final_node order d s) else None.
Proof. apply dict_get_map. Qed.

Lemma pack_S (fuel : nat) (s : string) :
  pack (final_table order d) (S fuel) s =
  if set_mem s (slims d) then
    ch <- mapM (pack (final_table order d) fuel)
               (sorted casefold String.ltb (children_of order d s)) ;;
    Some (TreeNode ("SLIM::" ++ s) s (members_of order d s) (aggv order d s) ch)
  else None.
Proof.
  cbn [pack]. rewrite final_table_get.
  destruct (set_mem s (slims d)); reflexivity.
Qed.

Lemma pack_total (fuel : nat) (s : string) :
  In s (slims d) -> rank d s < fuel ->
  exists n, pack (final_table order d) fuel s = Some n.
Proof.
  revert s. induction fuel as [|fuel IH]; intros s Hs Hr; [lia|].
  rewrite pack_S. pose proof Hs as Hm. apply set_mem_In in Hm. rewrite Hm.
  destruct (mapM_total (pack (final_table order d) fuel)
              (sorted casefold String.ltb (children_of order d s))) as [ch ->].
  - intros c Hc. apply sorted_In in Hc. apply child_rank in Hc.
    destruct Hc as [Hc Hlt]. apply IH; [assumption|lia].
  - simpl. eauto.
Qed.

Lemma node_aggregate_final (s : string) :
  In s (slims d) -> node_aggregate (final_table order d) s = Some (aggv order d s).
Proof.
  intros Hs. unfold node_aggregate. rewrite final_table_get.
  apply set_mem_In in Hs. now rewrite Hs.
Qed.

(** The builder returns, and what it returns. *)
Lemma build_tree_eq :
  exists ch,
    mapM (pack (final_table order d) (depth_budget d))
         (sorted casefold String.ltb (computed_roots order d)) = Some ch /\
    build_tree order d =
    Some (TreeNode "SLIM::ROOT" "Cell types" []
            (sorted casefold String.ltb
               (order (set_of_list (List.concat (map (aggv order d) (slims d))))))
            ch).
Proof.
  unfold build_tree. rewrite final_nodes_eq. cbn [bind].
  rewrite (roots_eq order d Hwf).
  destruct (mapM_total (pack (final_table order d) (depth_budget d))
              (sorted casefold String.ltb (computed_roots order d))) as [ch Hch].
  - intros r Hr. apply sorted_In in Hr.
    apply (computed_roots_spec order d Hwf) in Hr. destruct Hr as [Hr _].
    apply pack_total; [assumption|now apply rank_budget].
  - exists ch. split; [assumption|]. rewrite Hch. cbn [bind].
    rewrite (mapM_map _ (aggv order d)); [reflexivity|].
    intros s Hs. now apply node_aggregate_final.
Qed.
End DepthFacts.

(** ** The shape of the packed tree *)

Lemma Forall2_In_r {A B} {R : A -> B -> Prop} {l : list A} {l' : list B} {y : B} :
  Forall2 R l l' -> In y l' -> exists x, In x l /\ R x y.
Proof.
  induction 1 as [|a b l l' Hab _ IH]; simpl; [contradiction|].
  intros [<-|H]; [eauto|]. destruct (IH H) as [x [Hx Hr]]. eauto.
Qed.

Lemma Forall2_In_l {A B} {R : A -> B -> Prop} {l : list A} {l' : list B} {x : A} :
  Forall2 R l l' -> In x l -> exists y, In y l' /\ R x y.
Proof.
  induction 1 as [|a b l l' Hab _ IH]; simpl; [contradiction|].
  intros [<-|H]; [eauto|]. destruct (IH H) as [y [Hy Hr]]. eauto.
Qed.

Lemma Forall2_weaken {A B} (R R' : A -> B -> Prop) (l : list A) (l' : list B) :
  (forall x y, R x y -> R' x y) -> Forall2 R l l' -> Forall2 R' l l'.
Proof. intros H. induction 1; constructor; auto. Qed.

Lemma Forall2_map_eq {A B C} (R : A -> B -> Prop) (f : B -> C) (g : A -> C)
      (l : list A) (l' : list B) :
  (forall x y, R x y -> f y = g x) -> Forall2 R l l' -> map f l' = map g l.
Proof.
  intros H. induction 1 as [|a b l l' Hab _ IH]; simpl; [reflexivity|].
  now rewrite (H _ _ Hab), IH.
Qed.

Lemma StronglySorted_key_le (l : list string) :
  StronglySorted (key_le casefold String.ltb) l -> ci_sorted l.
Proof.
  unfold ci_sorted. induction 1 as [|x l Hs IH Hx]; constructor; [assumption|].
  rewrite Forall_forall in *. intros y Hy. unfold ci_le.
  apply string_ltb_leb. now apply Hx.
Qed.

Lemma sorted_ci_sorted (l : list string) : ci_sorted (sorted casefold String.ltb l).
Proof.
  apply StronglySorted_key_le, sorted_StronglySorted.
  - exact (fun a b => string_ltb_asym a b).
  - exact (fun a b c => string_le_trans a b c).
Qed.

Section TreeFacts.
Variables (order : set_order) (d : dict pyset).
Hypothesis Hwf : wf_index d.

Lemma pack_inv (fuel : nat) (s : string) (n : tree_node) :
  pack (final_table order d) fuel s = Some n ->
  In s (slims d) /\
  exists ch,
    Forall2 (packed order d) (sorted casefold String.ltb (children_of order d s)) ch /\
    n = TreeNode ("SLIM::" ++ s) s (members_of order d s) (aggv order d s) ch.
Proof.
  destruct fuel as [|fuel]; [discriminate|]. rewrite pack_S.
  destruct (set_mem s (slims d)) eqn:Hs; [|discriminate].
  apply set_mem_In in Hs. split; [assumption|].
  destruct (mapM _ _) as [ch|] eqn:E; [|discriminate].
  cbn [bind] in H. inversion H; subst. exists ch. split; [|reflexivity].
  apply mapM_Forall2 in E. revert E. apply Forall2_weaken.
  intros c nc Hc. now exists fuel.
Qed.

Lemma packed_inv (s : string) (n : tree_node) :
  packed order d s n ->
  In s (slims d) /\
  exists ch,
    Forall2 (packed order d) (sorted casefold String.ltb (children_of order d s)) ch /\
    n = TreeNode ("SLIM::" ++ s) s (members_of order d s) (aggv order d s) ch.
Proof. intros [fuel H]. now apply pack_inv in H. Qed.

Lemma packed_label (s : string) (n : tree_node) : packed order d s n -> tn_label n = s.
Proof. intros H. apply packed_inv in H. now destruct H as [_ [ch [_ ->]]]. Qed.

Lemma packed_aggregate (s : string) (n : tree_node) :
  packed order d s n -> tn_aggregate_members n = aggv order d s.
Proof. intros H. apply packed_inv in H. now destruct H as [_ [ch [_ ->]]]. Qed.

(** Every node below a packed node is the packed node of some slim. *)
Lemma packed_subnodes (fuel : nat) (s : string) (n n' : tree_node) :
  pack (final_table order d) fuel s = Some n -> In n' (subnodes n) ->
  exists s', packed order d s' n'.
Proof.
  revert s n. induction fuel as [|fuel IH]; intros s n H Hin; [discriminate|].
  pose proof H as H0. rewrite pack_S in H.
  destruct (set_mem s (slims d)); [|discriminate].
  destruct (mapM _ _) as [ch|] eqn:E; [|discriminate].
  cbn [bind] in H. inversion H; subst. clear H. simpl in Hin.
  destruct Hin as [<-|Hin]; [exists s; now exists (S fuel)|].
  apply in_flat_map in Hin. destruct Hin as [nc [Hnc Hin]].
  apply mapM_Forall2 in E.
  destruct (Forall2_In_r E Hnc) as [c [_ Hc]]. eauto.
Qed.

Lemma members_of_NoDup (s : string) : NoDup (members_of order d s).
Proof.
  unfold members_of. apply sorted_NoDup.
  eapply Permutation_NoDup; [symmetry; apply iter_perm|].
  now apply getitem_NoDup.
Qed.

Lemma members_of_In (s m : string) :
  In m (members_of order d s) <-> In m (getitem d s).
Proof.
  unfold members_of. rewrite sorted_In.
  split; apply Permutation_in; [|symmetry]; apply iter_perm.
Qed.

Lemma order_In (l : pyset) (m : string) : In m (order l) <-> In m l.
Proof. split; apply Permutation_in; [|symmetry]; apply iter_perm. Qed.

Lemma order_NoDup (l : pyset) : NoDup l -> NoDup (order l).
Proof. apply Permutation_NoDup. symmetry. apply iter_perm. Qed.

Lemma aggv_NoDup (s : string) : In s (slims d) -> NoDup (aggv order d s).
Proof.
  intros Hs. rewrite (aggv_unfold order d Hwf s Hs).
  apply sorted_NoDup, order_NoDup, fold_set_update_NoDup, set_of_list_NoDup.
Qed.

Lemma aggv_ci_sorted (s : string) : In s (slims d) -> ci_sorted (aggv order d s).
Proof.
  intros Hs. rewrite (aggv_unfold order d Hwf s Hs). apply sorted_ci_sorted.
Qed.

(** The aggregate of a slim is its members and the aggregates of its
    children, as a set. *)
Lemma aggv_In (s m : string) :
  In s (slims d) ->
  (In m (aggv order d s) <->
   In m (members_of order d s) \/
   exists c, In c (children_of order d s) /\ In m (aggv order d c)).
Proof.
  intros Hs. rewrite (aggv_unfold order d Hwf s Hs) at 1.
  rewrite sorted_In, order_In, fold_set_update_In, set_of_list_In.
  split; (intros [H|H]; [now left|right]).
  - destruct H as [l [Hl Hm]]. apply in_map_iff in Hl.
    destruct Hl as [c [<- Hc]]. eauto.
  - destruct H as [c [Hc Hm]]. exists (aggv order d c). split; [|assumption].
    now apply in_map.
Qed.
End TreeFacts.

(** ** The parent relation is a forest *)

Section ForestFacts.
Variables (order : set_order) (d : dict pyset).
Hypothesis Hwf : wf_index d.

Lemma ancestor_add (n m : nat) (t : string) :
  ancestor order d (n + m) t = (q <- ancestor order d n t ;; ancestor order d m q).
Proof.
  revert t. induction n as [|n IH]; intros t; simpl; [reflexivity|].
  destruct (parent_of order d t); [apply IH|reflexivity].
Qed.

(** Each step up reaches a strictly larger member set. *)
Lemma ancestor_sizes (n : nat) (t p : string) :
  ancestor order d n t = Some p -> sizes d t + n <= sizes d p.
Proof.
  revert t. induction n as [|n IH]; intros t; simpl.
  - intros [= ->]. lia.
  - destruct (parent_of order d t) as [q|] eqn:E; [|discriminate].
    intros H. apply IH in H.
    pose proof (parent_of_candidate order d Hwf _ _ E) as [_ [_ Hlt]]. lia.
Qed.

Lemma ancestor_in (n : nat) (t p : string) :
  In t (slims d) -> ancestor order d n t = Some p -> In p (slims d).
Proof.
  revert t. induction n as [|n IH]; intros t Ht; simpl.
  - now intros [= <-].
  - destruct (parent_of order d t) as [q|] eqn:E; [|discriminate].
    apply IH. now destruct (parent_of_candidate order d Hwf _ _ E).
Qed.

Lemma ancestor_same_parent_le (n k : nat) (t c1 c2 : string) :
  ancestor order d n t = Some c1 -> ancestor order d (n + k) t = Some c2 ->
  parent_of order d c1 = parent_of order d c2 -> c1 = c2.
Proof.
  intros H1 H2 Hp. rewrite ancestor_add, H1 in H2. cbn [bind] in H2.
  destruct k as [|k]; simpl in H2; [congruence|].
  destruct (parent_of order d c1) as [q|] eqn:E; [|discriminate].
  apply ancestor_sizes in H2. symmetry in Hp.
  pose proof (parent_of_candidate order d Hwf _ _ Hp) as [_ [_ Hlt]]. lia.
Qed.

(** Two nodes above [t] with the same parent (or both without) coincide. *)
Lemma ancestor_same_parent (n1 n2 : nat) (t c1 c2 : string) :
  ancestor order d n1 t = Some c1 -> ancestor order d n2 t = Some c2 ->
  parent_of order d c1 = parent_of order d c2 -> c1 = c2.
Proof.
  intros H1 H2 Hp. destruct (le_lt_dec n1 n2) as [Hle|Hlt].
  - replace n2 with (n1 + (n2 - n1)) in H2 by lia.
    eapply ancestor_same_parent_le; eassumption.
  - replace n1 with (n2 + (n1 - n2)) in H1 by lia. symmetry.
    eapply ancestor_same_parent_le; eauto.
Qed.

Lemma child_parent (p c : string) :
  In c (children_of order d p) -> parent_of order d c = Some p.
Proof. intros H. now apply (children_of_spec order d Hwf) in H. Qed.

(** The labels below the packed node of [s] lead up to [s]. *)
Lemma packed_labels_above (fuel : nat) (s : string) (n n' : tree_node) :
  pack (final_table order d) fuel s = Some n -> In n' (subnodes n) ->
  exists k, ancestor order d k (tn_label n') = Some s.
Proof.
  revert s n. induction fuel as [|fuel IH]; intros s n H Hin; [discriminate|].
  rewrite pack_S in H. destruct (set_mem s (slims d)); [|discriminate].
  destruct (mapM _ _) as [ch|] eqn:E; [|discriminate].
  cbn [bind] in H. inversion H; subst. clear H. simpl in Hin.
  destruct Hin as [<-|Hin]; [now exists 0|].
  apply in_flat_map in Hin. destruct Hin as [nc [Hnc Hin]].
  apply mapM_Forall2 in E. destruct (Forall2_In_r E Hnc) as [c [Hc Hp]].
  destruct (IH _ _ Hp Hin) as [k Hk]. exists (k + 1).
  rewrite ancestor_add, Hk. cbn [bind ancestor].
  apply sorted_In in Hc. now rewrite (child_parent _ _ Hc).
Qed.

(** Packing distinct slims that share their parent yields trees with
    disjoint, duplicate-free labels. *)
Lemma siblings_labels_NoDup (fuel : nat) (cs : list string) (ch : list tree_node) :
  NoDup cs ->
  (forall c1 c2, In c1 cs -> In c2 cs -> parent_of order d c1 = parent_of order d c2) ->
  (forall c nc, In c cs -> pack (final_table order d) fuel c = Some nc ->
                NoDup (map tn_label (subnodes nc))) ->
  Forall2 (fun c nc => pack (final_table order d) fuel c = Some nc) cs ch ->
  NoDup (labels ch).
Proof.
  unfold labels. intros Hnd Hsib Hrec Hall.
  induction Hall as [|c nc cs ch Hc Hall IH]; [constructor|].
  inversion Hnd as [|? ? Hni Hnd']; subst. cbn [flat_map].
  rewrite map_app. apply NoDup_app.
  - apply (Hrec c); [now left|assumption].
  - apply IH; [assumption| |].
    + intros c1 c2 H1 H2. apply Hsib; now right.
    + intros c' nc' H'. apply Hrec. now right.
  - intros t Ht1 Ht2. apply in_map_iff in Ht1, Ht2.
    destruct Ht1 as [n1 [<- Hn1]]. destruct Ht2 as [n2 [E2 Hn2]].
    apply in_flat_map in Hn2. destruct Hn2 as [nc2 [Hnc2 Hn2]].
    destruct (Forall2_In_r Hall Hnc2) as [c2 [Hc2 Hp2]].
    destruct (packed_labels_above _ _ _ _ Hc Hn1) as [k1 Hk1].
    destruct (packed_labels_above _ _ _ _ Hp2 Hn2) as [k2 Hk2].
    rewrite E2 in Hk2. apply Hni.
    rewrite (ancestor_same_parent _ _ _ _ _ Hk1 Hk2); [assumption|].
    apply Hsib; [now left|now right].
Qed.

Lemma packed_labels_NoDup (fuel : nat) (s : string) (n : tree_node) :
  pack (final_table order d) fuel s = Some n -> NoDup (map tn_label (subnodes n)).
Proof.
  revert s n. induction fuel as [|fuel IH]; intros s n H; [discriminate|].
  rewrite pack_S in H. destruct (set_mem s (slims d)); [|discriminate].
  destruct (mapM _ _) as [ch|] eqn:E; [|discriminate].
  cbn [bind] in H. inversion H; subst. clear H.
  apply mapM_Forall2 in E. cbn [subnodes map tn_label]. constructor.
  - intros Hin. apply in_map_iff in Hin. destruct Hin as [n' [El Hn']].
    apply in_flat_map in Hn'. destruct Hn' as [nc [Hnc Hn']].
    destruct (Forall2_In_r E Hnc) as [c [Hc Hp]].
    destruct (packed_labels_above _ _ _ _ Hp Hn') as [k Hk].
    rewrite El in Hk. apply ancestor_sizes in Hk.
    apply sorted_In in Hc.
    pose proof (child_smaller order d Hwf _ _ Hc) as [_ Hlt]. lia.
  - apply (siblings_labels_NoDup fuel
             (sorted casefold String.ltb (children_of order d s))).
    + apply sorted_NoDup. now apply children_of_NoDup.
    + intros c1 c2 H1 H2. apply sorted_In in H1, H2.
      rewrite (child_parent _ _ H1), (child_parent _ _ H2). reflexivity.
    + intros c nc _. apply IH.
    + assumption.
Qed.

Lemma computed_roots_NoDup : NoDup (computed_roots order d).
Proof. apply NoDup_filter. now apply slims_NoDup. Qed.

(** No slim occurs twice below the synthetic root. *)
Lemma roots_labels_NoDup (ch : list tree_node) :
  mapM (pack (final_table order d) (depth_budget d))
       (sorted casefold String.ltb (computed_roots order d)) = Some ch ->
  NoDup (labels ch).
Proof.
  intros E. apply mapM_Forall2 in E.
  apply (siblings_labels_NoDup (depth_budget d)
           (sorted casefold String.ltb (computed_roots order d))).
  - apply sorted_NoDup, computed_roots_NoDup.
  - intros c1 c2 H1 H2. apply sorted_In in H1, H2.
    apply (computed_roots_spec order d Hwf) in H1, H2.
    destruct H1 as [_ ->], H2 as [_ ->]. reflexivity.
  - intros c nc _. apply packed_labels_NoDup.
  - assumption.
Qed.

(** The parent relation has no cycle. *)
Lemma parent_acyclic (n : nat) (t : string) :
  0 < n -> ancestor order d n t <> Some t.
Proof. intros Hn H. apply ancestor_sizes in H. lia. Qed.
End ForestFacts.

(** ** The tree returned for a catalog *)

Lemma catalog_index_wf (bios : list biosample_type) : wf_index (catalog_index bios).
Proof. apply slim_buckets_wf. Qed.

Section OutputFacts.
Variables (order : set_order) (bios : list biosample_type).

Let d := catalog_index bios.

Lemma get_cell_tree_eq :
  exists ch,
    Forall2 (packed order d) (sorted casefold String.ltb (computed_roots order d)) ch /\
    NoDup (labels ch) /\
    get_cell_tree order bios =
    Some (Response true
            (TreeNode "SLIM::ROOT" "Cell types" []
               (sorted casefold String.ltb
                  (order (set_of_list (List.concat (map (aggv order d) (slims d))))))
               ch)).
Proof.
  pose proof (catalog_index_wf bios) as Hwf. fold d in Hwf.
  destruct (build_tree_eq order d Hwf) as [ch [Hch Hb]].
  exists ch. split; [|split].
  - apply mapM_Forall2 in Hch. revert Hch. apply Forall2_weaken.
    intros c nc Hc. now exists (depth_budget d).
  - now apply (roots_labels_NoDup order d Hwf).
  - unfold get_cell_tree. fold (catalog_index bios). fold d. now rewrite Hb.
Qed.

(** The builder returns for every catalog. *)
Lemma get_cell_tree_total : exists r, get_cell_tree order bios = Some r.
Proof. destruct get_cell_tree_eq as [ch [_ [_ H]]]. eauto. Qed.

Lemma packed_below (s : string) (n n' : tree_node) :
  packed order d s n -> In n' (subnodes n) -> exists s', packed order d s' n'.
Proof.
  intros [fuel H] Hin.
  exact (packed_subnodes order d fuel s n n' H Hin).
Qed.

(** Every node below the synthetic root is the packed node of a slim. *)
Lemma slim_nodes_packed (r : response) (n : tree_node) :
  get_cell_tree order bios = Some r -> In n (slim_nodes (tree r)) ->
  exists s, In s (slims d) /\ packed order d s n.
Proof.
  pose proof (catalog_index_wf bios) as Hwf. fold d in Hwf.
  destruct get_cell_tree_eq as [ch [Hch [_ E]]]. rewrite E. intros [= <-].
  unfold slim_nodes. simpl. intros Hin. apply in_flat_map in Hin.
  destruct Hin as [nr [Hnr Hin]].
  destruct (Forall2_In_r Hch Hnr) as [r0 [_ Hr0]].
  destruct (packed_below _ _ _ Hr0 Hin) as [s Hs]. exists s. split; [|assumption].
  now destruct (packed_inv order d _ _ Hs).
Qed.
End OutputFacts.

(** ** The forest covers the index when no label is empty *)

Section CoverFacts.
Variables (order : set_order) (bios : list biosample_type).

Let d := catalog_index bios.

Hypothesis labels_true : forall s, In s (slims d) -> s <> "".

(** Following parents from a slim ends in a root. *)
Lemma ancestor_root (k : nat) (t : string) :
  In t (slims d) -> depth_budget d - rank d t <= k ->
  exists j r, ancestor order d j t = Some r /\ In r (computed_roots order d).
Proof.
  pose proof (catalog_index_wf bios) as Hwf. fold d in Hwf.
  revert t. induction k as [|k IH]; intros t Ht Hk.
  - pose proof (rank_budget d t Ht). lia.
  - destruct (parent_of order d t) as [q|] eqn:E.
    + destruct (parent_of_candidate order d Hwf _ _ E) as [Hq [_ Hlt]].
      pose proof (rank_lt d t q Ht Hlt) as Hr.
      pose proof (rank_budget d q Hq) as Hb.
      destruct (IH q Hq) as [j [r [Hj Hroot]]]; [lia|].
      exists (S j), r. split; [|assumption]. simpl. now rewrite E.
    + exists 0, t. split; [reflexivity|].
      apply (computed_roots_spec order d Hwf). auto.
Qed.

(** The packed node of [s] holds every slim whose parents lead to [s]. *)
Lemma packed_covers (fuel k : nat) (s t : string) (n : tree_node) :
  pack (final_table order d) fuel s = Some n ->
  In t (slims d) -> ancestor order d k t = Some s ->
  In t (map tn_label (subnodes n)).
Proof.
  pose proof (catalog_index_wf bios) as Hwf. fold d in Hwf.
  revert k s n. induction fuel as [|fuel IH]; intros k s n H Ht Hk; [discriminate|].
  rewrite pack_S in H. destruct (set_mem s (slims d)) eqn:Hs; [|discriminate].
  apply set_mem_In in Hs.
  destruct (mapM _ _) as [ch|] eqn:E; [|discriminate].
  cbn [bind] in H. inversion H; subst n. clear H.
  cbn [subnodes map tn_label]. destruct k as [|k].
  - simpl in Hk. inversion Hk. now left.
  - right. replace (S k) with (k + 1) in Hk by lia.
    rewrite ancestor_add in Hk.
    destruct (ancestor order d k t) as [c|] eqn:Ec; [|discriminate].
    cbn [bind ancestor] in Hk.
    destruct (parent_of order d c) as [q|] eqn:Eq; [|discriminate].
    inversion Hk; subst q.
    assert (Hc : In c (children_of order d s)).
    { apply (children_of_spec order d Hwf). split; [|split].
      - exact (ancestor_in order d Hwf k t c Ht Ec).
      - assumption.
      - apply truthy_spec. now apply labels_true. }
    apply (sorted_In casefold String.ltb) in Hc.
    apply mapM_Forall2 in E. destruct (Forall2_In_l E Hc) as [nc [Hnc Hp]].
    apply in_map_iff.
    specialize (IH k c nc Hp Ht Ec). apply in_map_iff in IH.
    destruct IH as [n' [El Hn']]. exists n'. split; [assumption|].
    apply in_flat_map. eauto.
Qed.

(** Every slim of the index labels exactly one node below the root. *)
Lemma forest_covers_index (r : response) :
  get_cell_tree order bios = Some r ->
  Permutation (map tn_label (slim_nodes (tree r))) (slims d).
Proof.
  pose proof (catalog_index_wf bios) as Hwf. fold d in Hwf. intros Hr.
  pose proof (fun n => slim_nodes_packed order bios r n Hr) as Hsn.
  destruct (get_cell_tree_eq order bios) as [ch [_ [Hnd E]]].
  destruct (build_tree_eq order d Hwf) as [ch' [Hch' Hb]].
  assert (ch' = ch).
  { unfold get_cell_tree in E. fold (catalog_index bios) in E. fold d in E.
    rewrite Hb in E. cbn [bind] in E. now inversion E. }
  subst ch'. rewrite E in Hr. inversion Hr; subst r. clear Hr.
  unfold slim_nodes in *. cbn [tree tn_children] in *.
  apply NoDup_Permutation; [exact Hnd|now apply slims_NoDup|].
  intros t. split.
  - intros Ht. apply in_map_iff in Ht. destruct Ht as [n [<- Hn]].
    destruct (Hsn n Hn) as [s [Hs Hp]].
    now rewrite (packed_label order _ _ _ Hp).
  - intros Ht.
    destruct (ancestor_root (depth_budget d) t Ht) as [j [r0 [Hj Hroot]]]; [lia|].
    apply (sorted_In casefold String.ltb) in Hroot.
    apply mapM_Forall2 in Hch'.
    destruct (Forall2_In_l Hch' Hroot) as [nr [Hnr Hp]].
    pose proof (packed_covers _ _ _ _ _ Hp Ht Hj) as Hin.
    apply in_map_iff in Hin. destruct Hin as [n' [El Hn']].
    apply in_map_iff. exists n'. split; [assumption|].
    apply in_flat_map. eauto.
Qed.
End CoverFacts.

(** ** The loader *)

Lemma load_terms_excluded (b : biosample_type) (rest : list biosample_type) :
  excluded b -> load_terms (b :: rest) = load_terms rest.
Proof.
  unfold excluded. intros H. cbn [load_terms].
  destruct (truthy (norm_classification b) &&
            negb (set_mem (norm_classification b) allowed_classes)) eqn:E;
    [reflexivity|].
  destruct H as [[H1 H2]|[H|H]].
  - exfalso. apply andb_false_iff in E. destruct E as [E|E].
    + apply truthy_false in E. contradiction.
    + apply negb_false_iff, set_mem_In in E. contradiction.
  - now rewrite H.
  - now rewrite H.
Qed.

Lemma load_terms_included (b : biosample_type) (rest : list biosample_type) :
  ~ excluded b ->
  exists name,
    term_name b = Some name /\ name <> "" /\
    load_terms (b :: rest) = EncTerm name (or_else (cell_slims b) []) :: load_terms rest.
Proof.
  unfold excluded. intros H. cbn [load_terms].
  destruct (truthy (norm_classification b) &&
            negb (set_mem (norm_classification b) allowed_classes)) eqn:E.
  - exfalso. apply H. left. apply andb_true_iff in E. destruct E as [E1 E2].
    apply truthy_spec in E1. apply negb_true_iff, set_mem_false in E2. auto.
  - destruct (term_name b) as [name|]; [|exfalso; auto].
    destruct (truthy name) eqn:En.
    + apply truthy_spec in En. eauto.
    + apply truthy_false in En. subst. exfalso. auto.
Qed.

Lemma excluded_or_not (b : biosample_type) : excluded b \/ ~ excluded b.
Proof.
  unfold excluded.
  destruct (truthy (norm_classification b) &&
            negb (set_mem (norm_classification b) allowed_classes)) eqn:E.
  - left. left. apply andb_true_iff in E. destruct E as [E1 E2].
    apply truthy_spec in E1. apply negb_true_iff, set_mem_false in E2. auto.
  - destruct (term_name b) as [name|]; [|now auto].
    destruct (truthy name) eqn:En.
    + right. intros [[H1 H2]|[H|H]].
      * apply andb_false_iff in E. destruct E as [E|E].
        -- apply truthy_false in E. contradiction.
        -- apply negb_false_iff, set_mem_In in E. contradiction.
      * discriminate.
      * inversion H; subst. discriminate.
    + apply truthy_false in En. subst. auto.
Qed.

Lemma load_terms_In (bios : list biosample_type) (t : enc_term) :
  In t (load_terms bios) ->
  exists b, In b bios /\ ~ excluded b /\ term_name b = Some (et_term_name t) /\
            et_cell_slims t = or_else (cell_slims b) [].
Proof.
  induction bios as [|b bios IH]; [intros []|].
  destruct (excluded_or_not b) as [Hex|Hin].
  - rewrite (load_terms_excluded b bios Hex). intros H.
    destruct (IH H) as [b' [Hb' H']]. exists b'. split; [now right|assumption].
  - destruct (load_terms_included b bios Hin) as [name [Hn [_ ->]]].
    intros [<-|H].
    + exists b. simpl. split; [now left|]. split; [assumption|]. split; [assumption|reflexivity].
    + destruct (IH H) as [b' [Hb' H']]. exists b'. split; [now right|assumption].
Qed.

(** ** Ids and member lists of the returned tree *)

Lemma NoDup_map_injective {A B} (f : A -> B) (l : list A) :
  (forall x y, f x = f y -> x = y) -> NoDup l -> NoDup (map f l).
Proof.
  intros Hf. induction 1 as [|x l Hx _ IH]; simpl; constructor; [|assumption].
  intros Hin. apply in_map_iff in Hin. destruct Hin as [y [E Hy]].
  apply Hf in E. now subst.
Qed.

Lemma slim_id_injective (a b : string) :
  ("SLIM::" ++ a)%string = ("SLIM::" ++ b)%string -> a = b.
Proof. simpl. now intros [= ->]. Qed.

Section ShapeFacts.
Variables (order : set_order) (bios : list biosample_type).

Let d := catalog_index bios.

Lemma packed_shape (s : string) (n : tree_node) :
  packed order d s n ->
  tn_id n = ("SLIM::" ++ tn_label n)%string /\
  ci_sorted (tn_members n) /\ NoDup (tn_members n) /\
  ci_sorted (tn_aggregate_members n) /\ NoDup (tn_aggregate_members n) /\
  ci_sorted (map tn_label (tn_children n)).
Proof.
  pose proof (catalog_index_wf bios) as Hwf. fold d in Hwf. intros Hp.
  destruct (packed_inv order d _ _ Hp) as [Hs [ch [Hch ->]]].
  cbn [tn_id tn_label tn_members tn_aggregate_members tn_children].
  split; [reflexivity|]. split; [apply sorted_ci_sorted|].
  split; [now apply members_of_NoDup|].
  split; [now apply aggv_ci_sorted|]. split; [now apply aggv_NoDup|].
  rewrite (Forall2_map_eq (packed order d) tn_label (fun c => c) _ _
             (packed_label order d) Hch).
  rewrite map_id. apply sorted_ci_sorted.
Qed.

Lemma output_shape_lists (r : response) :
  get_cell_tree order bios = Some r -> shape_lists (tree r).
Proof.
  pose proof (catalog_index_wf bios) as Hwf. fold d in Hwf. intros Hr.
  pose proof (slim_nodes_packed order bios r) as Hsn.
  destruct (get_cell_tree_eq order bios) as [ch [Hch [_ E]]].
  rewrite E in Hr. inversion Hr; subst r. clear Hr.
  unfold shape_lists. cbn [tree tn_id tn_label].
  split; [reflexivity|]. split; [reflexivity|]. split.
  - intros n Hn. destruct (Hsn n E Hn) as [s [_ Hp]].
    now destruct (packed_shape _ _ Hp).
  - intros n [<-|Hn].
    + cbn [tn_members tn_aggregate_members tn_children].
      split; [constructor|]. split; [constructor|].
      split; [apply sorted_ci_sorted|]. split.
      * apply sorted_NoDup. eapply Permutation_NoDup;
          [symmetry; apply iter_perm|apply set_of_list_NoDup].
      * rewrite (Forall2_map_eq (packed order (catalog_index bios)) tn_label
                   (fun c => c) _ _ (packed_label order (catalog_index bios)) Hch).
        rewrite map_id. apply sorted_ci_sorted.
    + destruct (Hsn n E Hn) as [s [_ Hp]].
      now destruct (packed_shape _ _ Hp) as [_ H].
Qed.

Lemma slim_ids_NoDup (r : response) :
  get_cell_tree order bios = Some r -> NoDup (map tn_id (slim_nodes (tree r))).
Proof.
  intros Hr. pose proof (slim_nodes_packed order bios r) as Hsn.
  assert (E : map tn_id (slim_nodes (tree r)) =
              map (fun l => ("SLIM::" ++ l)%string) (map tn_label (slim_nodes (tree r)))).
  { rewrite map_map. apply map_ext_in. intros n Hn.
    destruct (Hsn n Hr Hn) as [s [_ Hp]]. now destruct (packed_shape _ _ Hp). }
  rewrite E. apply NoDup_map_injective; [exact slim_id_injective|].
  destruct (get_cell_tree_eq order bios) as [ch [_ [Hnd E']]].
  rewrite E' in Hr. inversion Hr; subst r. exact Hnd.
Qed.

Lemma all_ids_NoDup (r : response) :
  get_cell_tree order bios = Some r ->
  (forall n, In n (slim_nodes (tree r)) -> tn_label n <> "ROOT") ->
  NoDup (map tn_id (subnodes (tree r))).
Proof.
  intros Hr Hroot. pose proof (slim_ids_NoDup r Hr) as Hnd.
  pose proof (fun n => slim_nodes_packed order bios r n Hr) as Hsn.
  destruct (get_cell_tree_eq order bios) as [ch [_ [_ E]]].
  rewrite E in Hr. inversion Hr; subst r. clear Hr.
  cbn [tree subnodes map tn_id] in *. constructor; [|exact Hnd].
  intros Hin. apply in_map_iff in Hin. destruct Hin as [n [Eid Hn]].
  destruct (Hsn n Hn) as [s [_ Hp]].
  destruct (packed_shape _ _ Hp) as [Hid _]. rewrite Hid in Eid.
  apply (slim_id_injective (tn_label n) "ROOT") in Eid.
  exact (Hroot n Hn Eid).
Qed.
End ShapeFacts.

(** ** Where the members of the tree come from *)

Section SourceFacts.
Variables (order : set_order) (bios : list biosample_type).

Let d := catalog_index bios.

Lemma aggv_source (k : nat) (s m : string) :
  rank d s < k -> In s (slims d) -> In m (aggv order d s) ->
  exists s', In s' (slims d) /\ In m (getitem d s').
Proof.
  pose proof (catalog_index_wf bios) as Hwf. fold d in Hwf.
  revert s. induction k as [|k IH]; intros s Hr Hs Hm; [lia|].
  apply (aggv_In order d Hwf s m Hs) in Hm. destruct Hm as [Hm|[c [Hc Hm]]].
  - exists s. split; [assumption|]. now apply (members_of_In order d) in Hm.
  - destruct (child_rank order d Hwf _ _ Hc) as [Hc' Hlt].
    apply (IH c); [lia|assumption|assumption].
Qed.

(** Every string in a member list of the tree is a member of some slim. *)
Lemma tree_members_source (r : response) (n : tree_node) (m : string) :
  get_cell_tree order bios = Some r -> In n (subnodes (tree r)) ->
  In m (tn_members n) \/ In m (tn_aggregate_members n) ->
  exists s, In s (slims d) /\ In m (getitem d s).
Proof.
  pose proof (catalog_index_wf bios) as Hwf. fold d in Hwf. intros Hr Hn Hm.
  pose proof (fun n => slim_nodes_packed order bios r n Hr) as Hsn.
  assert (Hslim : forall n, In n (slim_nodes (tree r)) ->
            In m (tn_members n) \/ In m (tn_aggregate_members n) ->
            exists s, In s (slims d) /\ In m (getitem d s)).
  { intros n' Hn' Hm'. destruct (Hsn n' Hn') as [s [Hs Hp]].
    destruct (packed_inv order _ _ _ Hp) as [_ [ch [_ ->]]].
    cbn [tn_members tn_aggregate_members] in Hm'. destruct Hm' as [Hm'|Hm'].
    - exists s. split; [assumption|]. now apply (members_of_In order d) in Hm'.
    - apply (aggv_source _ _ _ (rank_budget d s Hs) Hs Hm'). }
  destruct (get_cell_tree_eq order bios) as [ch [_ [_ E]]].
  rewrite E in Hr. inversion Hr; subst r. clear Hr.
  cbn [tree subnodes] in Hn. destruct Hn as [<-|Hn]; [|now apply (Hslim n)].
  cbn [tn_members tn_aggregate_members] in Hm. destruct Hm as [[]|Hm].
  apply sorted_In in Hm.
  apply (Permutation_in _ (iter_perm order _)) in Hm.
  apply set_of_list_In, in_concat in Hm. destruct Hm as [l [Hl Hm]].
  apply in_map_iff in Hl. destruct Hl as [s [<- Hs]].
  apply (aggv_source _ _ _ (rank_budget d s Hs) Hs Hm).
Qed.

(** ... and so the name of a loaded record that lists that slim. *)
Lemma tree_members_record (r : response) (n : tree_node) (m : string) :
  get_cell_tree order bios = Some r -> In n (subnodes (tree r)) ->
  In m (tn_members n) \/ In m (tn_aggregate_members n) ->
  exists b, In b bios /\ ~ excluded b /\ term_name b = Some m /\
            or_else (cell_slims b) [] <> [].
Proof.
  intros Hr Hn Hm. destruct (tree_members_source r n m Hr Hn Hm) as [s [_ Hs]].
  apply slim_buckets_members in Hs. destruct Hs as [t [Ht [-> Hin]]].
  apply load_terms_In in Ht. destruct Ht as [b [Hb [Hex [Hname Hsl]]]].
  exists b. repeat split; try assumption. rewrite <- Hsl. intros E.
  now rewrite E in Hin.
Qed.
End SourceFacts.

Lemma slim_buckets_slimless (ts : list enc_term) :
  (forall t, In t ts -> et_cell_slims t = []) -> slim_buckets ts = slim_buckets [].
Proof.
  intros H. rewrite !slim_buckets_raw. simpl.
  induction ts as [|t ts IH]; simpl; [reflexivity|].
  unfold add_term at 2. rewrite (H t (or_introl eq_refl)). simpl.
  apply IH. intros t' Ht'. apply H. now right.
Qed.

(** ** Independence of the iteration order when no two strings clash *)

Lemma Permutation_filter {A} (f : A -> bool) (l l' : list A) :
  Permutation l l' -> Permutation (filter f l) (filter f l').
Proof.
  induction 1 as [|x l l' _ IH|x y l|l l' l'' _ IH1 _ IH2]; simpl.
  - constructor.
  - destruct (f x); [now constructor|assumption].
  - destruct (f x), (f y); try reflexivity. apply perm_swap.
  - now rewrite IH1.
Qed.

Section OrderFacts.
Variables (o1 o2 : set_order) (bios : list biosample_type).

Let d := catalog_index bios.

Hypothesis names_apart : casefold_injective_on (catalog_names bios).
Hypothesis labels_apart : casefold_injective_on (slims d).

Lemma getitem_names (s m : string) : In m (getitem d s) -> In m (catalog_names bios).
Proof.
  intros H. apply slim_buckets_members in H. destruct H as [t [Ht [-> _]]].
  unfold catalog_names. now apply in_map.
Qed.

Lemma sorted_names (l : pyset) :
  incl l (catalog_names bios) ->
  sorted casefold String.ltb (o1 l) = sorted casefold String.ltb (o2 l).
Proof.
  intros Hl. apply sorted_perm_eq.
  - exact (fun a b => string_ltb_asym a b).
  - exact (fun a b c => string_le_trans a b c).
  - intros x y Hx Hy H1 H2.
    apply (Permutation_in _ (iter_perm o1 l)) in Hx, Hy.
    apply names_apart; [now apply Hl|now apply Hl|].
    unfold key_le in *. now apply string_ltb_total.
  - rewrite (iter_perm o1 l). symmetry. apply iter_perm.
Qed.

Lemma members_of_order (s : string) : members_of o1 d s = members_of o2 d s.
Proof. apply sorted_names. intros m. apply getitem_names. Qed.

Lemma parent_of_order (a : string) : parent_of o1 d a = parent_of o2 d a.
Proof.
  unfold parent_of.
  assert (Hc : incl (candidates d a) (slims d)).
  { intros b Hb. unfold candidates in Hb. now apply filter_In in Hb. }
  destruct (candidates d a) as [|c cs]; [reflexivity|].
  set (cand := c :: cs) in *.
  assert (E : sorted (parent_key d) key_ltb (minimal_of o1 d cand) =
              sorted (parent_key d) key_ltb (minimal_of o2 d cand)).
  { apply sorted_perm_eq.
    - exact key_ltb_asym.
    - exact key_le_trans.
    - intros x y Hx Hy H1 H2. unfold minimal_of in Hx, Hy.
      apply filter_In in Hx, Hy. destruct Hx as [Hx _], Hy as [Hy _].
      apply (Permutation_in _ (iter_perm o1 cand)) in Hx, Hy.
      apply labels_apart; [now apply Hc|now apply Hc|].
      unfold key_le, parent_key in H1, H2.
      apply key_le_spec in H1, H2.
      destruct H1 as [H1|[E1 H1]]; destruct H2 as [H2|[E2 H2]]; try lia.
      now apply String.leb_antisym.
    - unfold minimal_of. apply Permutation_filter.
      rewrite (iter_perm o1 cand). symmetry. apply iter_perm. }
  now rewrite E.
Qed.

Lemma parents_order : parents o1 d = parents o2 d.
Proof. unfold parents. apply map_ext. intros a. now rewrite parent_of_order. Qed.

Lemma children_of_order (p : string) : children_of o1 d p = children_of o2 d p.
Proof.
  unfold children_of. apply filter_ext. intros c. unfold child_edge.
  now rewrite parent_of_order.
Qed.

Lemma linked_nodes_order : linked_nodes o1 d = linked_nodes o2 d.
Proof.
  pose proof (catalog_index_wf bios) as Hwf. fold d in Hwf.
  rewrite !linked_nodes_eq by assumption. apply map_ext. intros s.
  now rewrite children_of_order, members_of_order.
Qed.

Lemma aggv_order (k : nat) (s : string) :
  rank d s < k -> In s (slims d) -> aggv o1 d s = aggv o2 d s.
Proof.
  pose proof (catalog_index_wf bios) as Hwf. fold d in Hwf.
  revert s. induction k as [|k IH]; intros s Hr Hs; [lia|].
  rewrite (aggv_unfold o1 d Hwf s Hs), (aggv_unfold o2 d Hwf s Hs).
  rewrite <- children_of_order, <- members_of_order.
  assert (E : map (aggv o2 d) (children_of o1 d s) = map (aggv o1 d) (children_of o1 d s)).
  { apply map_ext_in. intros c Hc.
    destruct (child_rank o1 d Hwf _ _ Hc) as [Hc' Hlt]. symmetry.
    apply IH; [lia|assumption]. }
  rewrite E. apply sorted_names. intros m Hm.
  apply fold_set_update_In in Hm. destruct Hm as [Hm|[l [Hl Hm]]].
  - apply set_of_list_In, (members_of_In o1 d) in Hm. now apply getitem_names in Hm.
  - apply in_map_iff in Hl. destruct Hl as [c [<- Hc]].
    destruct (child_rank o1 d Hwf _ _ Hc) as [Hc' _].
    destruct (aggv_source o1 bios _ _ _ (rank_budget d c Hc') Hc' Hm) as [s' [_ Hs']].
    now apply getitem_names in Hs'.
Qed.

Lemma final_table_order : final_table o1 d = final_table o2 d.
Proof.
  unfold final_table, final_node. apply map_ext_in. intros s Hs.
  rewrite children_of_order, members_of_order.
  now rewrite (aggv_order _ _ (rank_budget d s Hs) Hs).
Qed.

Lemma computed_roots_order : computed_roots o1 d = computed_roots o2 d.
Proof.
  unfold computed_roots, all_children. now rewrite parents_order, linked_nodes_order.
Qed.

(** The tree does not depend on the iteration order of sets when
    [casefold] separates the names and separates the labels. *)
Lemma get_cell_tree_order : get_cell_tree o1 bios = get_cell_tree o2 bios.
Proof.
  pose proof (catalog_index_wf bios) as Hwf. fold d in Hwf.
  unfold get_cell_tree. fold (catalog_index bios). fold d.
  destruct (build_tree_eq o1 d Hwf) as [ch1 [H1 ->]].
  destruct (build_tree_eq o2 d Hwf) as [ch2 [H2 ->]].
  rewrite final_table_order, computed_roots_order, H2 in H1.
  inversion H1; subst ch2.
  assert (E : map (aggv o1 d) (slims d) = map (aggv o2 d) (slims d)).
  { apply map_ext_in. intros s Hs. exact (aggv_order _ _ (rank_budget d s Hs) Hs). }
  rewrite E. rewrite (sorted_names (set_of_list (List.concat (map (aggv o2 d) (slims d))))).
  - reflexivity.
  - intros m Hm. apply set_of_list_In, in_concat in Hm.
    destruct Hm as [l [Hl Hm]]. apply in_map_iff in Hl. destruct Hl as [s [<- Hs]].
    destruct (aggv_source o2 bios _ _ _ (rank_budget d s Hs) Hs Hm) as [s' [_ Hs']].
    now apply getitem_names in Hs'.
Qed.
End OrderFacts.

(** * The claims *)

(** C1. Minimal-parent law: when the builder records [p] as the parent of
    [a], the members of [a] are a strict subset of the members of [p], no
    slim of the index has a member set strictly between the two, and so a
    slim and its parent never have the same members. *)
Theorem minimal_parent_law (order : set_order) (bios : list biosample_type)
        (a p : string) :
  dict_get (parents order (catalog_index bios)) a = Some (Some p) ->
  strict_subset (getitem (catalog_index bios) a) (getitem (catalog_index bios) p) /\
  (forall q, In q (slims (catalog_index bios)) ->
     ~ (strict_subset (getitem (catalog_index bios) a) (getitem (catalog_index bios) q) /\
        strict_subset (getitem (catalog_index bios) q) (getitem (catalog_index bios) p))) /\
  ~ (forall m, In m (getitem (catalog_index bios) a) <->
               In m (getitem (catalog_index bios) p)).
Proof.
  set (d := catalog_index bios). pose proof (catalog_index_wf bios) as Hwf.
  fold d in Hwf. intros H. apply parents_Some in H. destruct H as [Ha Hp].
  apply (parent_of_Some order d Hwf) in Hp.
  destruct Hp as [[[Hp [Hne Hsub]] Hmin] _]. split; [assumption|]. split.
  - intros q Hq [H1 H2]. apply (Hmin q); [|assumption].
    split; [assumption|]. split; [|assumption].
    intros ->. now apply strict_subset_irrefl in H1.
  - intros Heq. destruct Hsub as [_ Hn]. apply Hn. intros m Hm. now apply Heq.
Qed.

Lemma minimal_parent_law_witness :
  strict_subset (getitem (catalog_index chain_catalog) "x")
                (getitem (catalog_index chain_catalog) "y") /\
  (forall q, In q (slims (catalog_index chain_catalog)) ->
     ~ (strict_subset (getitem (catalog_index chain_catalog) "x")
                      (getitem (catalog_index chain_catalog) q) /\
        strict_subset (getitem (catalog_index chain_catalog) q)
                      (getitem (catalog_index chain_catalog) "y"))) /\
  ~ (forall m, In m (getitem (catalog_index chain_catalog) "x") <->
               In m (getitem (catalog_index chain_catalog) "y")).
Proof.
  apply (minimal_parent_law insertion_order chain_catalog "x" "y").
  vm_compute. reflexivity.
Defined.

(** C4. Parent tie-break: a slim with a minimal strict-superset candidate
    gets exactly one parent; the parent is a minimal candidate, no minimal
    candidate has a smaller member set, and among those of the same size
    none has a label that is smaller case-insensitively. *)
Theorem parent_tie_break (order : set_order) (bios : list biosample_type) (a : string) :
  In a (slims (catalog_index bios)) ->
  (exists b, is_minimal_candidate (catalog_index bios) a b) ->
  exists p,
    dict_get (parents order (catalog_index bios)) a = Some (Some p) /\
    (forall p', dict_get (parents order (catalog_index bios)) a = Some (Some p') -> p' = p) /\
    is_minimal_candidate (catalog_index bios) a p /\
    forall q, is_minimal_candidate (catalog_index bios) a q ->
      sizes (catalog_index bios) p < sizes (catalog_index bios) q \/
      (sizes (catalog_index bios) p = sizes (catalog_index bios) q /\ ci_le p q).
Proof.
  set (d := catalog_index bios). pose proof (catalog_index_wf bios) as Hwf.
  fold d in Hwf. intros Ha [b Hb].
  destruct (parent_of order d a) as [p|] eqn:Hp.
  - exists p. assert (Hget : dict_get (parents order d) a = Some (Some p)).
    { apply parents_Some. auto. }
    split; [assumption|]. split; [intros p' Hp'; congruence|].
    apply (parent_of_Some order d Hwf) in Hp. destruct Hp as [Hmin Hleast].
    split; [assumption|]. intros q Hq. specialize (Hleast q Hq).
    unfold parent_key in Hleast. apply key_le_spec in Hleast.
    unfold ci_le. destruct Hleast as [H|[H1 H2]]; [left; lia|right].
    split; [lia|assumption].
  - exfalso. apply (parent_of_None order d Hwf) in Hp.
    destruct Hb as [Hb _]. apply (candidates_spec d Hwf) in Hb.
    now rewrite Hp in Hb.
Qed.

Lemma parent_tie_break_witness :
  exists p,
    dict_get (parents insertion_order (catalog_index tie_catalog)) "x" = Some (Some p) /\
    (forall p', dict_get (parents insertion_order (catalog_index tie_catalog)) "x"
                = Some (Some p') -> p' = p) /\
    is_minimal_candidate (catalog_index tie_catalog) "x" p /\
    forall q, is_minimal_candidate (catalog_index tie_catalog) "x" q ->
      sizes (catalog_index tie_catalog) p < sizes (catalog_index tie_catalog) q \/
      (sizes (catalog_index tie_catalog) p = sizes (catalog_index tie_catalog) q /\
       ci_le p q).
Proof.
  apply (parent_tie_break insertion_order tie_catalog "x").
  - vm_compute. tauto.
  - exists "y1".
    apply (minimal_candidate_spec insertion_order _ (catalog_index_wf tie_catalog)).
    vm_compute. tauto.
Defined.

(** The tie-break scenario of the specification: [y1] comes before [Y2]
    case-insensitively, though [Y2] comes first in the index and in the
    order of the code points; either iteration order gives [y1]. *)
Example tie_break_scenario :
  dict_get (parents insertion_order (catalog_index tie_catalog)) "x" = Some (Some "y1") /\
  dict_get (parents reversed_order (catalog_index tie_catalog)) "x" = Some (Some "y1").
Proof. split; reflexivity. Qed.

(** C9. The fallback is unreachable: when the index has a slim, the
    computed root list is non-empty and is the root list used. *)
Theorem fallback_unreachable (order : set_order) (bios : list biosample_type) :
  slims (catalog_index bios) <> [] ->
  computed_roots order (catalog_index bios) <> [] /\
  roots order (catalog_index bios) = computed_roots order (catalog_index bios).
Proof.
  intros H. split.
  - apply computed_roots_nonempty; [apply catalog_index_wf|assumption].
  - apply roots_eq, catalog_index_wf.
Qed.

Lemma fallback_unreachable_witness :
  computed_roots insertion_order (catalog_index chain_catalog) <> [] /\
  roots insertion_order (catalog_index chain_catalog) =
  computed_roots insertion_order (catalog_index chain_catalog).
Proof.
  apply (fallback_unreachable insertion_order chain_catalog).
  vm_compute. discriminate.
Defined.

(** C6. Catalog loader filtering: a record is dropped from the term list
    exactly when its normalised classification is non-empty and not
    allowed, or its name is missing or empty; otherwise it is loaded with
    its name and slims.  In particular a record with an empty or absent
    classification and a non-empty name is loaded. *)
Theorem loader_filtering (pre post : list biosample_type) (b : biosample_type) :
  (excluded b -> load_terms (pre ++ b :: post) = load_terms pre ++ load_terms post) /\
  (~ excluded b ->
   exists name,
     term_name b = Some name /\
     load_terms (pre ++ b :: post) =
     load_terms pre ++ EncTerm name (or_else (cell_slims b) []) :: load_terms post) /\
  (classification b = None \/ classification b = Some "" ->
   forall name, term_name b = Some name -> name <> "" -> ~ excluded b).
Proof.
  split; [|split].
  - intros H. now rewrite load_terms_app, (load_terms_excluded b post H).
  - intros H. destruct (load_terms_included b post H) as [name [Hn [_ E]]].
    exists name. split; [assumption|]. now rewrite load_terms_app, E.
  - intros Hc name Hn Hne [[H _]|[H|H]].
    + apply H. unfold norm_classification. now destruct Hc as [-> | ->].
    + congruence.
    + congruence.
Qed.

Lemma loader_filtering_witness :
  load_terms ([record "cell" "A" ["x"]] ++ record "tissue" "C" ["x"] :: [record "cell" "B" ["y"]])
  = load_terms [record "cell" "A" ["x"]] ++ load_terms [record "cell" "B" ["y"]] /\
  (exists name,
     term_name (record " Cell Line " "B" ["y"]) = Some name /\
     load_terms ([] ++ record " Cell Line " "B" ["y"] :: []) =
     load_terms [] ++ EncTerm name (or_else (cell_slims (record " Cell Line " "B" ["y"])) [])
                :: load_terms []) /\
  ~ excluded (BiosampleType None (Some "A") None).
Proof.
  split; [|split].
  - apply (proj1 (loader_filtering [record "cell" "A" ["x"]] [record "cell" "B" ["y"]]
                    (record "tissue" "C" ["x"]))).
    left. split; [vm_compute; discriminate|].
    vm_compute. intros [H|[H|[H|[H|[]]]]]; discriminate.
  - apply (proj1 (proj2 (loader_filtering [] [] (record " Cell Line " "B" ["y"])))).
    intros [[H1 H2]|[H|H]]; try discriminate.
    apply H2. vm_compute. tauto.
  - apply (proj2 (proj2 (loader_filtering [] [] (BiosampleType None (Some "A") None)))
             (or_introl eq_refl) "A" eq_refl).
    discriminate.
Defined.

(** [sorted] keeps the elements of equal key in the order it received
    them, as the sort of the interpreter does. *)
Example sorted_is_stable :
  sorted casefold String.ltb ["B"; "a"; "A"; "b"] = ["a"; "A"; "B"; "b"].
Proof. reflexivity. Qed.

(** The single-term and the disallowed-classification scenarios of the
    specification. *)
Example single_term_scenario :
  get_cell_tree insertion_order [record "cell" "A" ["x"]] =
  Some (Response true
          (TreeNode "SLIM::ROOT" "Cell types" [] ["A"]
             [TreeNode "SLIM::x" "x" ["A"] ["A"] []])).
Proof. reflexivity. Qed.

Example disallowed_classification_scenario :
  load_terms [record "tissue" "C" ["x"]] = [] /\
  get_cell_tree insertion_order [record "tissue" "C" ["x"]] =
  get_cell_tree insertion_order [].
Proof. split; reflexivity. Qed.

(** C7. Empty catalog: the builder returns a tree whose children list and
    aggregate members are empty. *)
Theorem empty_catalog (order : set_order) :
  get_cell_tree order [] =
  Some (Response true (TreeNode "SLIM::ROOT" "Cell types" [] [] [])).
Proof.
  unfold get_cell_tree, build_tree. cbn.
  assert (E : iter order [] = []).
  { apply Permutation_nil. symmetry. apply iter_perm. }
  now rewrite E.
Qed.

(** C5. Aggregator correctness: in the tree returned for a catalog, the
    aggregate members of a slim node are, as a set, its members together
    with the aggregate members of its children; the list has no duplicate
    and is sorted case-insensitively; so it contains the node's members
    and every child's aggregate members. *)
Theorem aggregator_correct (order : set_order) (bios : list biosample_type) :
  exists r,
    get_cell_tree order bios = Some r /\
    forall n, In n (slim_nodes (tree r)) ->
      (forall m, In m (tn_aggregate_members n) <->
                 In m (tn_members n) \/
                 exists c, In c (tn_children n) /\ In m (tn_aggregate_members c)) /\
      NoDup (tn_aggregate_members n) /\
      ci_sorted (tn_aggregate_members n) /\
      incl (tn_members n) (tn_aggregate_members n) /\
      forall c, In c (tn_children n) ->
                incl (tn_aggregate_members c) (tn_aggregate_members n).
Proof.
  destruct (get_cell_tree_total order bios) as [r Hr]. exists r.
  split; [assumption|]. intros n Hn.
  pose proof (catalog_index_wf bios) as Hwf.
  destruct (slim_nodes_packed order bios r n Hr Hn) as [s [Hs Hp]].
  destruct (packed_inv order _ _ _ Hp) as [_ [ch [Hch ->]]].
  cbn [tn_aggregate_members tn_members tn_children].
  assert (Hiff : forall m, In m (aggv order (catalog_index bios) s) <->
                 In m (members_of order (catalog_index bios) s) \/
                 exists c, In c ch /\ In m (tn_aggregate_members c)).
  { intros m. rewrite (aggv_In order _ Hwf s m Hs).
    split; (intros [H|[c [Hc Hm]]]; [now left|right]).
    - apply (sorted_In casefold String.ltb) in Hc.
      destruct (Forall2_In_l Hch Hc) as [nc [Hnc Hpc]]. exists nc.
      split; [assumption|]. now rewrite (packed_aggregate order _ _ _ Hpc).
    - destruct (Forall2_In_r Hch Hc) as [c0 [Hc0 Hpc]]. exists c0.
      apply sorted_In in Hc0. split; [assumption|].
      now rewrite <- (packed_aggregate order _ _ _ Hpc). }
  split; [exact Hiff|]. split; [now apply aggv_NoDup|].
  split; [now apply aggv_ci_sorted|]. split.
  - intros m Hm. apply Hiff. now left.
  - intros c Hc m Hm. apply Hiff. right. eauto.
Qed.

Lemma aggregator_correct_witness :
  exists r,
    get_cell_tree insertion_order chain_catalog = Some r /\
    forall n, In n (slim_nodes (tree r)) ->
      (forall m, In m (tn_aggregate_members n) <->
                 In m (tn_members n) \/
                 exists c, In c (tn_children n) /\ In m (tn_aggregate_members c)) /\
      NoDup (tn_aggregate_members n) /\
      ci_sorted (tn_aggregate_members n) /\
      incl (tn_members n) (tn_aggregate_members n) /\
      forall c, In c (tn_children n) ->
                incl (tn_aggregate_members c) (tn_aggregate_members n).
Proof. exact (aggregator_correct insertion_order chain_catalog). Defined.

(** The chain scenario of the specification. *)
Example chain_scenario :
  get_cell_tree insertion_order chain_catalog =
  Some (Response true
          (TreeNode "SLIM::ROOT" "Cell types" [] ["A"; "B"]
             [TreeNode "SLIM::y" "y" ["A"; "B"] ["A"; "B"]
                [TreeNode "SLIM::x" "x" ["A"] ["A"] []]])).
Proof. reflexivity. Qed.

(** C8, as amended.  Output shape contract: the synthetic root has the id
    [SLIM::ROOT] and the label [Cell types]; the id of a slim node is
    [SLIM::] followed by its label; ids are unique across the slim nodes,
    and across all nodes when no slim is labelled [ROOT]; all member lists
    are sorted case-insensitively without duplicates; all children lists
    are sorted case-insensitively by label. *)
Theorem output_shape_contract (order : set_order) (bios : list biosample_type) :
  exists r, get_cell_tree order bios = Some r /\ output_shape_slims (tree r).
Proof.
  destruct (get_cell_tree_total order bios) as [r Hr]. exists r.
  split; [assumption|]. split; [|split].
  - now apply (output_shape_lists order bios).
  - now apply (slim_ids_NoDup order bios).
  - now apply (all_ids_NoDup order bios).
Qed.

Lemma output_shape_contract_witness :
  exists r, get_cell_tree insertion_order tie_catalog = Some r /\
            output_shape_slims (tree r).
Proof. exact (output_shape_contract insertion_order tie_catalog). Defined.

(** C8, as stated, fails on a slim labelled [ROOT]: its node carries the
    id of the synthetic root. *)
Lemma output_shape_ROOT_clash :
  exists r, get_cell_tree insertion_order root_label_catalog = Some r /\
            ~ output_shape (tree r).
Proof.
  eexists. split; [reflexivity|]. intros [_ H]. cbn in H.
  inversion H as [|? ? Hni _]; subst. apply Hni. now left.
Qed.

(** C10, as amended.  A record that passes the filter and lists no slim
    adds nothing: the tree is the one of the catalog without the record;
    a name appears in no member list of the tree when every loaded record
    of that name lists no slim; and a catalog in which every record is
    dropped or lists no slim yields the tree of the empty catalog. *)
Theorem slimless_records_inert (order : set_order) (bios : list biosample_type) :
  (forall pre post b, bios = pre ++ b :: post -> slimless b ->
     get_cell_tree order bios = get_cell_tree order (pre ++ post)) /\
  (forall name r,
     (forall b, In b bios -> ~ excluded b -> term_name b = Some name ->
                or_else (cell_slims b) [] = []) ->
     get_cell_tree order bios = Some r -> name_absent name (tree r)) /\
  ((forall b, In b bios -> excluded b \/ slimless b) ->
   get_cell_tree order bios = get_cell_tree order []).
Proof.
  split; [|split].
  - intros pre post b -> [Hin Hsl]. unfold get_cell_tree.
    destruct (load_terms_included b post Hin) as [name [_ [_ E]]].
    rewrite !load_terms_app, E, Hsl. now rewrite slim_buckets_skip.
  - intros name r Hall Hr n Hn.
    assert (H : ~ (In name (tn_members n) \/ In name (tn_aggregate_members n))).
    { intros Hm.
      destruct (tree_members_record order bios r n name Hr Hn Hm)
        as [b [Hb [Hex [Hname Hne]]]].
      apply Hne. now apply Hall. }
    tauto.
  - intros Hall. unfold get_cell_tree. cbn [load_terms].
    rewrite (slim_buckets_slimless (load_terms bios)); [reflexivity|].
    intros t Ht. apply load_terms_In in Ht.
    destruct Ht as [b [Hb [Hex [_ Hsl]]]]. rewrite Hsl.
    destruct (Hall b Hb) as [H|[_ H]]; [contradiction|assumption].
Qed.

Lemma slimless_records_inert_witness :
  get_cell_tree insertion_order ([record "cell" "A" ["x"]] ++ record "cell" "B" [] :: [])
  = get_cell_tree insertion_order ([record "cell" "A" ["x"]] ++ []) /\
  (exists r, get_cell_tree insertion_order [record "cell" "A" ["x"]; record "cell" "B" []]
             = Some r /\ name_absent "B" (tree r)) /\
  get_cell_tree insertion_order [record "cell" "B" []; record "tissue" "C" ["x"]]
  = get_cell_tree insertion_order [].
Proof.
  assert (Hcell : forall n sl, ~ excluded (record "cell" n sl) \/ n = "").
  { intros n sl. destruct (String.eqb_spec n "") as [->|Hn]; [now right|left].
    intros [[_ H]|[H|H]]; [|discriminate|inversion H; contradiction].
    apply H. vm_compute. tauto. }
  split; [|split].
  - apply (proj1 (slimless_records_inert insertion_order
                    ([record "cell" "A" ["x"]] ++ record "cell" "B" [] :: []))
             [record "cell" "A" ["x"]] [] (record "cell" "B" []) eq_refl).
    split; [|reflexivity]. destruct (Hcell "B" []) as [H|H]; [exact H|discriminate].
  - eexists. split; [reflexivity|].
    apply (proj1 (proj2 (slimless_records_inert insertion_order
                           [record "cell" "A" ["x"]; record "cell" "B" []])) "B");
      [|reflexivity].
    intros b [<-|[<-|[]]] _ Hn; [discriminate|reflexivity].
  - apply (proj2 (proj2 (slimless_records_inert insertion_order
                           [record "cell" "B" []; record "tissue" "C" ["x"]]))).
    intros b [<-|[<-|[]]].
    + right. split; [|reflexivity].
      destruct (Hcell "B" []) as [H|H]; [exact H|discriminate].
    + left. left. split; [vm_compute; discriminate|].
      vm_compute. intros [H|[H|[H|[H|[]]]]]; discriminate.
Defined.

(** C10, as stated, fails when a second record of the same name lists a
    slim: the name of the slimless record is a member of that slim. *)
Lemma slimless_name_present :
  ~ slimless_names_absent insertion_order same_name_catalog.
Proof.
  intros H.
  assert (Hs : slimless (record "cell" "A" [])).
  { split; [|reflexivity]. intros [[_ Hc]|[Hc|Hc]]; [|discriminate|discriminate].
    apply Hc. vm_compute. tauto. }
  specialize (H (record "cell" "A" []) "A" _ (or_introl eq_refl) Hs eq_refl eq_refl).
  destruct (H (TreeNode "SLIM::x" "x" ["A"] ["A"] [])) as [Hm _].
  - cbn. right. now left.
  - apply Hm. now left.
Qed.

(** C2 fails on two names that differ in case only: both have the sort
    key [a], the stable sort leaves them as the set yields them, and the
    member lists of the tree follow the order in which the set is
    iterated.  (Where [casefold] separates the names and the labels the
    tree is the same for every iteration order, see
    [get_cell_tree_order].) *)
Theorem iteration_order_leaks :
  get_cell_tree insertion_order case_clash_catalog =
  Some (Response true
          (TreeNode "SLIM::ROOT" "Cell types" [] ["A"; "a"]
             [TreeNode "SLIM::x" "x" ["A"; "a"] ["A"; "a"] []])) /\
  get_cell_tree reversed_order case_clash_catalog =
  Some (Response true
          (TreeNode "SLIM::ROOT" "Cell types" [] ["a"; "A"]
             [TreeNode "SLIM::x" "x" ["a"; "A"] ["A"; "a"] []])) /\
  get_cell_tree insertion_order case_clash_catalog <>
  get_cell_tree reversed_order case_clash_catalog.
Proof.
  split; [reflexivity|]. split; [reflexivity|]. vm_compute. discriminate.
Qed.

(** C3 fails on a slim with the empty label: [x] is recorded with the
    parent [""], so it is no root, and yet it is appended to no children
    list, so the tree returned has no node for it: it is reachable from no
    root.  (Where no label is empty every slim labels exactly one node
    below the root, see [forest_covers_index]; the parent relation itself
    has no cycle, see [parent_acyclic].) *)
Theorem empty_label_parent_drops_child :
  In "x" (slims (catalog_index empty_label_catalog)) /\
  dict_get (parents insertion_order (catalog_index empty_label_catalog)) "x"
  = Some (Some "") /\
  roots insertion_order (catalog_index empty_label_catalog) = [""] /\
  get_cell_tree insertion_order empty_label_catalog =
  Some (Response true
          (TreeNode "SLIM::ROOT" "Cell types" [] ["A"; "B"]
             [TreeNode "SLIM::" "" ["A"; "B"] ["A"; "B"] []])) /\
  forall r, get_cell_tree insertion_order empty_label_catalog = Some r ->
            ~ In "x" (map tn_label (slim_nodes (tree r))).
Proof.
  split; [vm_compute; tauto|]. split; [reflexivity|]. split; [reflexivity|].
  split; [reflexivity|]. intros r H. vm_compute in H. inversion H; subst r.
  cbn. intros [E|[]]. discriminate.
Qed.

(** * The facet endpoints and the options route *)

(** ** [_facet_terms] *)

Lemma collect_terms_In (terms : list facet_term) (k : string) (n : Z) :
  In (k, n) (collect_terms terms) <->
  k <> "" /\
  exists t, In t terms /\ ft_key t = Some k /\ n = or_else (ft_doc_count t) 0%Z.
Proof.
  induction terms as [|t terms IH]; simpl.
  - split; [intros []|intros [_ [t [[] _]]]].
  - destruct (ft_key t) as [k'|] eqn:Ek.
    + destruct (truthy k') eqn:Et.
      * simpl. rewrite IH. apply truthy_spec in Et. split.
        -- intros [E|[Hk [t' [Ht' H]]]].
           ++ inversion E; subst. split; [assumption|]. exists t. auto.
           ++ split; [assumption|]. exists t'. tauto.
        -- intros [Hk [t' [[<-|Ht'] [H1 H2]]]].
           ++ left. rewrite Ek in H1. inversion H1. now subst.
           ++ right. split; [assumption|]. exists t'. auto.
      * rewrite IH. apply truthy_false in Et. subst k'. split.
        -- intros [Hk [t' [Ht' H]]]. split; [assumption|]. exists t'. tauto.
        -- intros [Hk [t' [[<-|Ht'] [H1 H2]]]].
           ++ rewrite Ek in H1. inversion H1. congruence.
           ++ split; [assumption|]. exists t'. auto.
    + rewrite IH. split.
      * intros [Hk [t' [Ht' H]]]. split; [assumption|]. exists t'. tauto.
      * intros [Hk [t' [[<-|Ht'] [H1 H2]]]]; [congruence|].
        split; [assumption|]. exists t'. auto.
Qed.

Lemma collect_terms_length (terms : list facet_term) :
  List.length (collect_terms terms) <= List.length terms.
Proof.
  induction terms as [|t terms IH]; simpl; [lia|].
  destruct (ft_key t) as [k|]; [destruct (truthy k)|]; simpl; lia.
Qed.

Lemma first_facet_skip (pre : list facet) (rest : list facet) (name : string) :
  (forall g, In g pre -> f_field g <> Some name) ->
  first_facet (pre ++ rest) name = first_facet rest name.
Proof.
  induction pre as [|g pre IH]; intros H; simpl; [reflexivity|].
  destruct (f_field g) as [s|] eqn:E.
  - destruct (String.eqb_spec s name) as [->|Hne].
    + exfalso. apply (H g); [now left|assumption].
    + apply IH. intros g' Hg'. apply H. now right.
  - apply IH. intros g' Hg'. apply H. now right.
Qed.

(** X1. The first facet that carries the field decides: the facets before
    it are skipped, and the facets after it are not read, not even one
    with the same field. *)
Theorem facet_terms_first_match (p : payload) (pre post : list facet) (f : facet)
        (name : string) :
  p_facets p = Some (pre ++ f :: post) ->
  (forall g, In g pre -> f_field g <> Some name) ->
  f_field f = Some name ->
  _facet_terms p name = collect_terms (or_else (f_terms f) []).
Proof.
  intros Hp Hpre Hf. unfold _facet_terms. rewrite Hp. cbn [or_else].
  rewrite first_facet_skip by assumption. cbn [first_facet].
  now rewrite Hf, String.eqb_refl.
Qed.

Lemma facet_terms_first_match_witness :
  _facet_terms sample_search "assay_title" =
  collect_terms
    (or_else (f_terms (Facet (Some "assay_title")
                          (Some [FacetTerm (Some "ChIP-seq") (Some 7%Z);
                                 FacetTerm (Some "") (Some 9%Z);
                                 FacetTerm (Some "ATAC-seq") None;
                                 FacetTerm None (Some 3%Z);
                                 FacetTerm (Some "DNase-seq") (Some 7%Z)]))) []).
Proof.
  apply (facet_terms_first_match sample_search []
           [Facet (Some "target.label")
                  (Some [FacetTerm (Some "CTCF") (Some 2%Z);
                         FacetTerm (Some "POLR2A") (Some 5%Z)]);
            Facet (Some "assay_title")
                  (Some [FacetTerm (Some "shadowed") (Some 1%Z)]);
            Facet (Some "assembly")
                  (Some [FacetTerm (Some "hg19") (Some 4%Z);
                         FacetTerm (Some "GRCh38") (Some 4%Z)]);
            Facet (Some "biosample_ontology.term_name")
                  (Some [FacetTerm (Some "liver") (Some 1%Z);
                         FacetTerm (Some "HepG2") (Some 8%Z)])]).
  - reflexivity.
  - intros g [].
  - reflexivity.
Defined.

(** X2. A reply without the field, or without facets at all, gives the
    empty list, never an error. *)
Theorem facet_terms_no_match (p : payload) (name : string) :
  (forall g, In g (or_else (p_facets p) []) -> f_field g <> Some name) ->
  _facet_terms p name = [].
Proof.
  intros H. unfold _facet_terms.
  rewrite <- (app_nil_r (or_else (p_facets p) [])).
  now rewrite first_facet_skip.
Qed.

Lemma facet_terms_no_match_witness :
  _facet_terms bare_reply "assay_title" = [] /\
  _facet_terms sample_search "organism.scientific_name" = [].
Proof.
  split.
  - apply (facet_terms_no_match bare_reply "assay_title"). intros g [].
  - apply (facet_terms_no_match sample_search "organism.scientific_name").
    cbn. intros g [<-|[<-|[<-|[<-|[<-|[]]]]]]; cbn; discriminate.
Defined.

Lemma facet_terms_key (p : payload) (name k : string) (n : Z) :
  In (k, n) (_facet_terms p name) -> k <> "".
Proof.
  unfold _facet_terms. generalize (or_else (p_facets p) []) as fs.
  induction fs as [|g fs IH]; simpl; [intros []|].
  destruct (match f_field g with Some s => s =? name | None => false end);
    [|exact IH].
  intros H. apply collect_terms_In in H. tauto.
Qed.

(** X3. Every pair that [_facet_terms] returns has a non-empty key and is
    read off a term of a facet with that field: the key of the term, and
    its [doc_count], or 0 when the term has none.  No more pairs are
    returned than that facet has terms. *)
Theorem facet_terms_sound (p : payload) (name : string) :
  (forall k n, In (k, n) (_facet_terms p name) ->
     k <> "" /\
     exists f t, In f (or_else (p_facets p) []) /\ f_field f = Some name /\
                 In t (or_else (f_terms f) []) /\ ft_key t = Some k /\
                 n = or_else (ft_doc_count t) 0%Z) /\
  (_facet_terms p name <> [] ->
   exists f, In f (or_else (p_facets p) []) /\ f_field f = Some name /\
             List.length (_facet_terms p name) <= List.length (or_else (f_terms f) [])).
Proof.
  unfold _facet_terms. generalize (or_else (p_facets p) []) as fs.
  induction fs as [|g fs [IH1 IH2]]; simpl.
  - split; [intros k n []|congruence].
  - destruct (f_field g) as [s|] eqn:E.
    + destruct (String.eqb_spec s name) as [->|Hne].
      * split.
        -- intros k n H. apply collect_terms_In in H.
           destruct H as [Hk [t [Ht [H1 H2]]]]. split; [assumption|].
           exists g, t. auto 6.
        -- intros _. exists g. split; [now left|]. split; [assumption|].
           apply collect_terms_length.
      * split.
        -- intros k n H. destruct (IH1 k n H) as [Hk [f [t [Hf H']]]].
           split; [assumption|]. exists f, t. split; [now right|assumption].
        -- intros H. destruct (IH2 H) as [f [Hf H']]. exists f.
           split; [now right|assumption].
    + split.
      * intros k n H. destruct (IH1 k n H) as [Hk [f [t [Hf H']]]].
        split; [assumption|]. exists f, t. split; [now right|assumption].
      * intros H. destruct (IH2 H) as [f [Hf H']]. exists f.
        split; [now right|assumption].
Qed.

Lemma facet_terms_sound_witness :
  (forall k n, In (k, n) (_facet_terms sample_search "assay_title") ->
     k <> "" /\
     exists f t, In f (or_else (p_facets sample_search) []) /\
                 f_field f = Some "assay_title" /\
                 In t (or_else (f_terms f) []) /\ ft_key t = Some k /\
                 n = or_else (ft_doc_count t) 0%Z) /\
  (_facet_terms sample_search "assay_title" <> [] ->
   exists f, In f (or_else (p_facets sample_search) []) /\
             f_field f = Some "assay_title" /\
             List.length (_facet_terms sample_search "assay_title")
             <= List.length (or_else (f_terms f) [])).
Proof. exact (facet_terms_sound sample_search "assay_title"). Defined.

Example facet_terms_sample :
  _facet_terms sample_search "assay_title" =
  [("ChIP-seq", 7%Z); ("ATAC-seq", 0%Z); ("DNase-seq", 7%Z)].
Proof. reflexivity. Qed.

(** ** The rankings *)

Lemma count_key_le (a b : string * Z) :
  key_le count_key key_ltb a b <-> rank_le a b.
Proof.
  unfold key_le, count_key, rank_le. rewrite key_le_spec.
  split; (intros [H|[H1 H2]]; [left; lia|right; split; [lia|assumption]]).
Qed.

Lemma StronglySorted_weaken {A} (R R' : A -> A -> Prop) (l : list A) :
  (forall x y, R x y -> R' x y) -> StronglySorted R l -> StronglySorted R' l.
Proof.
  intros H. induction 1 as [|x l Hs IH Hx]; constructor; [assumption|].
  rewrite Forall_forall in *. auto.
Qed.

Lemma StronglySorted_map {A B} (f : A -> B) (R : B -> B -> Prop) (l : list A) :
  StronglySorted (fun x y => R (f x) (f y)) l -> StronglySorted R (map f l).
Proof.
  induction 1 as [|x l Hs IH Hx]; simpl; constructor; [assumption|].
  rewrite Forall_forall in *. intros y Hy. apply in_map_iff in Hy.
  destruct Hy as [z [<- Hz]]. auto.
Qed.

(** X4. The ranking of the assay, organism and target facets: the keys
    returned are the keys of the terms, each as often as it occurs, in
    the order of a list of the terms with larger counts first and, among
    equal counts, the lower-cased keys ascending. *)
Theorem by_count_ranked (terms : list (string * Z)) :
  exists ranked,
    by_count terms = map fst ranked /\
    Permutation ranked terms /\
    StronglySorted rank_le ranked.
Proof.
  exists (sorted count_key key_ltb terms). split; [reflexivity|].
  split; [apply sorted_perm|].
  apply (StronglySorted_weaken (key_le count_key key_ltb)).
  - intros x y. apply count_key_le.
  - apply sorted_StronglySorted; [exact key_ltb_asym|exact key_le_trans].
Qed.

Example by_count_sample :
  by_count (_facet_terms sample_search "assay_title") =
  ["ChIP-seq"; "DNase-seq"; "ATAC-seq"].
Proof. reflexivity. Qed.

(** Keys that differ in case only tie in [by_count]: the reply order
    decides between them. *)
Example by_count_case_tie :
  by_count [("a", 1%Z); ("A", 1%Z)] = ["a"; "A"] /\
  by_count [("A", 1%Z); ("a", 1%Z)] = ["A"; "a"].
Proof. split; reflexivity. Qed.

Lemma by_count_nil (terms : list (string * Z)) : by_count terms = [] -> terms = [].
Proof.
  unfold by_count. intros H. apply map_eq_nil in H. now apply sorted_nil in H.
Qed.

Lemma by_count_exact_perm (ts ts' : list (string * Z)) :
  Permutation ts ts' -> by_count_exact ts = by_count_exact ts'.
Proof.
  intros H. unfold by_count_exact. f_equal. apply sorted_perm_eq.
  - exact key_ltb_asym.
  - exact key_le_trans.
  - intros [k n] [k' n'] _ _ H1 H2. unfold key_le, count_key_exact in H1, H2.
    simpl in H1, H2. apply key_le_spec in H1, H2.
    destruct H1 as [H1|[E1 H1]]; destruct H2 as [H2|[E2 H2]]; try lia.
    f_equal; [now apply String.leb_antisym|lia].
  - assumption.
Qed.

(** X5. The assemblies do not depend on the order in which the archive
    lists the terms of the facet: two replies whose assembly terms are a
    permutation of each other give the same list.  (The key of this sort
    is the count and the key itself, so no two different terms tie.) *)
Theorem get_assemblies_term_order
        (urlencode : list (string * string) -> string)
        (server1 server2 : request_log -> string -> outcome payload)
        (org : option string) (log : request_log) (p1 p2 : payload) :
  server1 log (BASE ++ "?" ++ urlencode (assemblies_params org))%string = Returned p1 ->
  server2 log (BASE ++ "?" ++ urlencode (assemblies_params org))%string = Returned p2 ->
  Permutation (_facet_terms p1 "assembly") (_facet_terms p2 "assembly") ->
  get_assemblies urlencode server1 org log = get_assemblies urlencode server2 org log.
Proof.
  intros H1 H2 Hp. unfold get_assemblies, _payload, _http_json, io_bind, ret.
  rewrite H1, H2. now rewrite (by_count_exact_perm _ _ Hp).
Qed.

Lemma get_assemblies_term_order_witness :
  get_assemblies sample_urlencode sample_server (Some "Homo sapiens") [] =
  get_assemblies sample_urlencode swapped_server (Some "Homo sapiens") [].
Proof.
  apply (get_assemblies_term_order sample_urlencode sample_server swapped_server
           (Some "Homo sapiens") [] sample_search sample_search_swapped).
  - reflexivity.
  - reflexivity.
  - apply perm_swap.
Defined.

Example get_assemblies_sample :
  fst (get_assemblies sample_urlencode sample_server None []) =
  Returned ["GRCh38"; "hg19"].
Proof. reflexivity. Qed.

(** ** [get_targets] and [get_cell_types] *)

(** X6. When the Experiment search lists a target, [get_targets] makes
    that one request and returns its ranking: what the archive would
    answer to the File search, or whether it would answer at all, has no
    part in the result. *)
Theorem get_targets_experiment_first
        (urlencode : list (string * string) -> string)
        (server1 server2 : request_log -> string -> outcome payload)
        (log : request_log) (pe : payload) :
  server1 log (experiment_url urlencode) = Returned pe ->
  server2 log (experiment_url urlencode) = Returned pe ->
  _facet_terms pe "target.label" <> [] ->
  get_targets urlencode server1 log =
  (Returned (by_count (_facet_terms pe "target.label")), log ++ [experiment_url urlencode]) /\
  get_targets urlencode server2 log = get_targets urlencode server1 log.
Proof.
  intros H1 H2 Hne.
  assert (H : forall server, server log (experiment_url urlencode) = Returned pe ->
            get_targets urlencode server log =
            (Returned (by_count (_facet_terms pe "target.label")),
             log ++ [experiment_url urlencode])).
  { intros server Hs. unfold get_targets, _payload, _http_json, io_bind.
    fold (experiment_url urlencode). rewrite Hs.
    destruct (by_count (_facet_terms pe "target.label")) eqn:E; [|reflexivity].
    apply by_count_nil in E. contradiction. }
  split; [now apply H|]. now rewrite (H server1), (H server2).
Qed.

Lemma get_targets_experiment_first_witness :
  get_targets sample_urlencode sample_server [] =
  (Returned (by_count (_facet_terms sample_search "target.label")),
   [] ++ [experiment_url sample_urlencode]) /\
  get_targets sample_urlencode flaky_server [] =
  get_targets sample_urlencode sample_server [].
Proof.
  apply (get_targets_experiment_first sample_urlencode sample_server flaky_server
           [] sample_search).
  - reflexivity.
  - reflexivity.
  - vm_compute. discriminate.
Defined.

(** X7. [get_targets] returns the empty list only after both searches
    answered without a target: the Experiment search has no term under
    [target.label], the File search, asked next, has none under
    [dataset.target.label]. *)
Theorem get_targets_empty
        (urlencode : list (string * string) -> string)
        (server : request_log -> string -> outcome payload)
        (log log' : request_log) :
  get_targets urlencode server log = (Returned [], log') ->
  exists pe pf,
    server log (experiment_url urlencode) = Returned pe /\
    _facet_terms pe "target.label" = [] /\
    server (log ++ [experiment_url urlencode]) (file_url urlencode) = Returned pf /\
    _facet_terms pf "dataset.target.label" = [] /\
    log' = log ++ [experiment_url urlencode; file_url urlencode].
Proof.
  unfold get_targets, _payload, _http_json, io_bind, ret.
  fold (experiment_url urlencode). fold (file_url urlencode).
  destruct (server log (experiment_url urlencode)) as [pe|msg] eqn:E1; [|discriminate].
  destruct (by_count (_facet_terms pe "target.label")) eqn:Et; [|discriminate].
  destruct (server (log ++ [experiment_url urlencode]) (file_url urlencode))
    as [pf|msg] eqn:E2; [|discriminate].
  intros H. injection H as Hr Hl. subst log'. exists pe, pf.
  split; [reflexivity|]. split; [now apply by_count_nil|].
  split; [reflexivity|]. split; [now apply by_count_nil|].
  now rewrite <- app_assoc.
Qed.

Lemma get_targets_empty_witness :
  exists pe pf,
    bare_server [] (experiment_url sample_urlencode) = Returned pe /\
    _facet_terms pe "target.label" = [] /\
    bare_server ([] ++ [experiment_url sample_urlencode]) (file_url sample_urlencode)
    = Returned pf /\
    _facet_terms pf "dataset.target.label" = [] /\
    [experiment_url sample_urlencode; file_url sample_urlencode] =
    [] ++ [experiment_url sample_urlencode; file_url sample_urlencode].
Proof.
  apply (get_targets_empty sample_urlencode bare_server []
           [experiment_url sample_urlencode; file_url sample_urlencode]).
  reflexivity.
Defined.

Lemma by_name_ci_sorted (terms : list (string * Z)) : ci_sorted (by_name terms).
Proof.
  unfold by_name, ci_sorted. apply StronglySorted_map.
  apply (StronglySorted_weaken (key_le (fun t => casefold (fst t)) String.ltb)).
  - intros x y H. unfold ci_le. apply string_ltb_leb. exact H.
  - apply sorted_StronglySorted.
    + exact (fun a b => string_ltb_asym a b).
    + exact (fun a b c => string_le_trans a b c).
Qed.

Lemma by_name_In (terms : list (string * Z)) (c : string) :
  In c (by_name terms) <-> exists n, In (c, n) terms.
Proof.
  unfold by_name. rewrite in_map_iff. split.
  - intros [[k n] [<- H]]. exists n. now apply (proj1 (sorted_In _ _ _ _)) in H.
  - intros [n H]. exists (c, n). split; [reflexivity|].
    now apply (proj2 (sorted_In _ _ _ _)).
Qed.

(** X8. The flat list of cell types, when [get_cell_types] returns one,
    is sorted case-insensitively and holds no empty name; it is empty
    only if the File search was asked too. *)
Theorem get_cell_types_sorted
        (urlencode : list (string * string) -> string)
        (server : request_log -> string -> outcome payload)
        (log log' : request_log) (cs : list string) :
  get_cell_types urlencode server log = (Returned cs, log') ->
  ci_sorted cs /\ (forall c, In c cs -> c <> "") /\
  (cs = [] -> log' = log ++ [experiment_url urlencode; file_url urlencode]).
Proof.
  unfold get_cell_types, _payload, _http_json, io_bind, ret.
  fold (experiment_url urlencode). fold (file_url urlencode).
  destruct (server log (experiment_url urlencode)) as [p|msg] eqn:E1; [|discriminate].
  destruct (_facet_terms p "biosample_ontology.term_name") as [|t ts] eqn:Et.
  - destruct (server (log ++ [experiment_url urlencode]) (file_url urlencode))
      as [pf|msg] eqn:E2; [|discriminate].
    intros H. injection H as Hc Hl. subst cs log'.
    split; [apply by_name_ci_sorted|]. split.
    + intros c Hin. apply by_name_In in Hin. destruct Hin as [n Hin].
      exact (facet_terms_key pf _ c n Hin).
    + intros _. now rewrite <- app_assoc.
  - intros H. injection H as Hc Hl. subst cs log'.
    split; [apply by_name_ci_sorted|]. split.
    + intros c Hin. apply by_name_In in Hin. destruct Hin as [n Hin].
      rewrite <- Et in Hin.
      exact (facet_terms_key p _ c n Hin).
    + intros Hnil. exfalso.
      assert (Hin : In (fst t) (by_name (t :: ts))).
      { apply by_name_In. exists (snd t). left. now destruct t. }
      now rewrite Hnil in Hin.
Qed.

Lemma get_cell_types_sorted_witness :
  ci_sorted ["HepG2"; "liver"] /\ (forall c, In c ["HepG2"; "liver"] -> c <> "") /\
  (["HepG2"; "liver"] = [] ->
   [] ++ [experiment_url sample_urlencode] =
   [] ++ [experiment_url sample_urlencode; file_url sample_urlencode]).
Proof.
  apply (get_cell_types_sorted sample_urlencode sample_server []
           ([] ++ [experiment_url sample_urlencode]) ["HepG2"; "liver"]).
  reflexivity.
Defined.

(** ** Requests and failures *)


Section RequestFacts.
Variable urlencode : list (string * string) -> string.
Variable server : request_log -> string -> outcome payload.
Variable order : set_order.









Lemma makes_weaken {A} (m : io A) (lo hi lo' hi' : nat) :
  lo' <= lo -> hi <= hi' -> makes m lo hi -> makes m lo' hi'.
Proof.
  intros H1 H2 H log. destruct (H log) as [reqs [E Hl]]. exists reqs.
  split; [assumption|lia].
Qed.

Lemma makes_ret {A} (a : A) : makes (ret a) 0 0.
Proof. intros log. exists []. simpl. rewrite app_nil_r. split; [reflexivity|lia]. Qed.

Lemma makes_http (url : string) : makes (_http_json server url) 1 1.
Proof. intros log. exists [url]. simpl. split; [reflexivity|lia]. Qed.

(** A failure cuts a sequence short, so only the requests of the first
    part are sure to be made. *)
Lemma makes_bind {A B} (m : io A) (f : A -> io B) (lo hi hi' : nat) :
  makes m lo hi -> (forall a, makes (f a) 0 hi') -> makes (io_bind m f) lo (hi + hi').
Proof.
  intros Hm Hf log. unfold io_bind. destruct (Hm log) as [r1 [E1 H1]].
  destruct (m log) as [[a|msg] log1]; simpl in E1; subst log1.
  - destruct (Hf a (log ++ r1)) as [r2 [E2 H2]]. exists (r1 ++ r2).
    rewrite E2, app_assoc, length_app. split; [reflexivity|lia].
  - exists r1. simpl. split; [reflexivity|lia].
Qed.

Lemma makes_assays : makes (get_assays_and_organisms urlencode server) 1 1.
Proof.
  apply (makes_bind _ _ 1 1 0); [apply makes_http|]. intros p. apply makes_ret.
Qed.

Lemma makes_targets : makes (get_targets urlencode server) 1 2.
Proof.
  apply (makes_bind _ _ 1 1 1); [apply makes_http|]. intros pe.
  destruct (by_count (_facet_terms pe "target.label")).
  - apply (makes_bind _ _ 0 1 0); [|intros pf; apply makes_ret].
    apply (makes_weaken _ 1 1); [lia|lia|apply makes_http].
  - apply (makes_weaken _ 0 0); [lia|lia|apply makes_ret].
Qed.

Lemma makes_cell_types : makes (get_cell_types urlencode server) 1 2.
Proof.
  apply (makes_bind _ _ 1 1 1); [apply makes_http|]. intros p.
  destruct (_facet_terms p "biosample_ontology.term_name").
  - apply (makes_bind _ _ 0 1 0); [|intros pf; apply makes_ret].
    apply (makes_weaken _ 1 1); [lia|lia|apply makes_http].
  - apply (makes_weaken _ 0 0); [lia|lia|apply makes_ret].
Qed.

Lemma makes_cell_tree : makes (get_cell_tree_io server order) 1 1.
Proof.
  apply (makes_bind _ _ 1 1 0).
  - apply (makes_bind _ _ 1 1 0); [apply makes_http|]. intros p. apply makes_ret.
  - intros bios. destruct (get_cell_tree_total order bios) as [r ->]. apply makes_ret.
Qed.

(** X9. The cell tree is fetched with one request, and [get_cell_tree]
    raises exactly when that request raises, with its message: the
    builder adds no failure of its own, whatever the archive returns. *)
Theorem cell_tree_fails_only_on_fetch (log : request_log) :
  snd (get_cell_tree_io server order log) = log ++ [biosample_types_url] /\
  forall msg,
    fst (get_cell_tree_io server order log) = Raised msg <->
    server log biosample_types_url = Raised msg.
Proof.
  unfold get_cell_tree_io, _fetch_biosample_types, _http_json, io_bind, ret.
  destruct (server log biosample_types_url) as [p|m].
  - destruct (get_cell_tree_total order (or_else (p_graph p) [])) as [r ->].
    simpl. split; [reflexivity|]. intros msg. split; discriminate.
  - simpl. split; [reflexivity|]. intros msg. split; intros [= ->]; reflexivity.
Qed.

(** X10. A reply of the catalog search without [@graph], or with an
    empty one, is no error: the tree is the empty root. *)
Theorem cell_tree_of_missing_graph (log : request_log) (p : payload) :
  server log biosample_types_url = Returned p ->
  p_graph p = None \/ p_graph p = Some [] ->
  get_cell_tree_io server order log =
  (Returned (Response true empty_tree), log ++ [biosample_types_url]).
Proof.
  intros Hs Hg. unfold get_cell_tree_io, _fetch_biosample_types, _http_json, io_bind, ret.
  rewrite Hs.
  assert (E : or_else (p_graph p) [] = []) by (destruct Hg as [-> | ->]; reflexivity).
  rewrite E. unfold get_cell_tree, build_tree. cbn.
  assert (En : iter order [] = []).
  { apply Permutation_nil. symmetry. apply iter_perm. }
  now rewrite En.
Qed.


(** X12. The options route makes at least one and at most six requests,
    the first of them the Experiment search, and leaves the earlier log
    as it was. *)
Theorem api_options_requests (log : request_log) :
  exists rest,
    snd (api_options urlencode server order log) =
    log ++ experiment_url urlencode :: rest /\
    List.length rest <= 5.
Proof.
  unfold api_options, guarded, get_assays_and_organisms, _payload.
  fold (experiment_url urlencode).
  set (k := fun p : payload =>
              ret (AssaysAndOrganisms (by_count (_facet_terms p "assay_title"))
                     (by_count (_facet_terms p "organism.scientific_name")))).
  set (rest := fun base : assays_and_organisms =>
                 targets <~ get_targets urlencode server ;;
                 cell_types <~ get_cell_types urlencode server ;;
                 tree_payload <~ get_cell_tree_io server order ;;
                 ret (OptionsBody (assays base) (organisms base) targets cell_types
                                  (tree tree_payload))).
  assert (Hrest : forall base, makes (rest base) 0 5).
  { intros base. unfold rest.
    apply (makes_bind _ _ 0 2 3);
      [apply (makes_weaken _ 1 2); [lia|lia|apply makes_targets]|]. intros targets.
    apply (makes_bind _ _ 0 2 1);
      [apply (makes_weaken _ 1 2); [lia|lia|apply makes_cell_types]|]. intros cts.
    apply (makes_bind _ _ 0 1 0);
      [apply (makes_weaken _ 1 1); [lia|lia|apply makes_cell_tree]|]. intros t.
    apply makes_ret. }
  unfold io_bind at 1 2. unfold _http_json at 1.
  destruct (server log (experiment_url urlencode)) as [p|msg].
  - unfold k at 1. unfold ret at 1.
    destruct (Hrest (AssaysAndOrganisms (by_count (_facet_terms p "assay_title"))
                       (by_count (_facet_terms p "organism.scientific_name")))
                    (log ++ [experiment_url urlencode])) as [r [E Hl]].
    exists r. split; [|lia].
    destruct (rest _ _) as [[b|m] l']; simpl in *; rewrite E;
      now rewrite <- app_assoc.
  - exists []. simpl. split; [reflexivity|lia].
Qed.
End RequestFacts.

Lemma cell_tree_of_missing_graph_witness :
  get_cell_tree_io bare_server insertion_order [] =
  (Returned (Response true empty_tree), [] ++ [biosample_types_url]).
Proof.
  apply (cell_tree_of_missing_graph bare_server insertion_order [] bare_reply).
  - reflexivity.
  - now left.
Defined.

(** The route on the sample archive, and on the one that fails on the
    catalog: four requests either way, the fourth one raising. *)
Example api_options_sample :
  exists body,
    api_options sample_urlencode sample_server insertion_order [] =
    (Reply200 body,
     [experiment_url sample_urlencode; experiment_url sample_urlencode;
      experiment_url sample_urlencode; biosample_types_url]) /\
    ob_assays body = ["ChIP-seq"; "DNase-seq"; "ATAC-seq"] /\
    ob_targets body = ["POLR2A"; "CTCF"] /\
    ob_cell_types body = ["HepG2"; "liver"] /\
    api_options sample_urlencode flaky_server insertion_order [] =
    (Reply400 "503 Server Error",
     [experiment_url sample_urlencode; experiment_url sample_urlencode;
      experiment_url sample_urlencode; biosample_types_url]).
Proof. eexists. split; [reflexivity|]. repeat split. Qed.

(** ** The requests behind a reply with status 200 *)

Lemma io_bind_returned {A B} (m : io A) (f : A -> io B) (log log' : request_log) (y : B) :
  io_bind m f log = (Returned y, log') ->
  exists x l1, m log = (Returned x, l1) /\ f x l1 = (Returned y, log').
Proof.
  unfold io_bind. destruct (m log) as [[x|msg] l1]; [eauto|discriminate].
Qed.

Section SuccessFacts.
Variable urlencode : list (string * string) -> string.
Variable server : request_log -> string -> outcome payload.
Variable order : set_order.

Lemma payload_log (params : list (string * string)) (log log' : request_log) (p : payload) :
  _payload urlencode server params log = (Returned p, log') ->
  log' = log ++ [(BASE ++ "?" ++ urlencode params)%string].
Proof. unfold _payload, _http_json. now intros [= _ <-]. Qed.

Lemma targets_log (log log' : request_log) (ts : list string) :
  get_targets urlencode server log = (Returned ts, log') ->
  exists a, (a = [] \/ a = [file_url urlencode]) /\
            log' = log ++ experiment_url urlencode :: a.
Proof.
  unfold get_targets. intros H. apply io_bind_returned in H.
  destruct H as [pe [l1 [H1 H2]]]. apply payload_log in H1. subst l1.
  fold (experiment_url urlencode) in H2.
  destruct (by_count (_facet_terms pe "target.label")).
  - apply io_bind_returned in H2. destruct H2 as [pf [l2 [H2 H3]]].
    apply payload_log in H2. subst l2. fold (file_url urlencode) in H3.
    unfold ret in H3. injection H3 as _ <-. exists [file_url urlencode].
    split; [now right|]. now rewrite <- app_assoc.
  - unfold ret in H2. injection H2 as _ <-. exists []. split; [now left|reflexivity].
Qed.

Lemma cell_types_log (log log' : request_log) (cs : list string) :
  get_cell_types urlencode server log = (Returned cs, log') ->
  exists a, (a = [] \/ a = [file_url urlencode]) /\
            log' = log ++ experiment_url urlencode :: a.
Proof.
  unfold get_cell_types. intros H. apply io_bind_returned in H.
  destruct H as [pe [l1 [H1 H2]]]. apply payload_log in H1. subst l1.
  fold (experiment_url urlencode) in H2.
  destruct (_facet_terms pe "biosample_ontology.term_name").
  - apply io_bind_returned in H2. destruct H2 as [pf [l2 [H2 H3]]].
    apply payload_log in H2. subst l2. fold (file_url urlencode) in H3.
    unfold ret in H3. injection H3 as _ <-. exists [file_url urlencode].
    split; [now right|]. now rewrite <- app_assoc.
  - unfold ret in H2. injection H2 as _ <-. exists []. split; [now left|reflexivity].
Qed.

Lemma cell_tree_log (log log' : request_log) (r : response) :
  get_cell_tree_io server order log = (Returned r, log') ->
  log' = log ++ [biosample_types_url].
Proof.
  unfold get_cell_tree_io, _fetch_biosample_types, _http_json, io_bind, ret.
  destruct (server log biosample_types_url) as [p|m]; [|discriminate].
  destruct (get_cell_tree order (or_else (p_graph p) [])); [|discriminate].
  now intros [= _ <-].
Qed.

(** X13. Behind a reply with status 200 are four to six requests in a
    fixed order: the Experiment search three times, once for each of the
    assays, the targets and the cell types, the second and the third
    time followed by the File search when the facet was empty, and last
    the catalog search. *)
Theorem api_options_success_requests (log log' : request_log) (body : options_body) :
  api_options urlencode server order log = (Reply200 body, log') ->
  exists a b,
    (a = [] \/ a = [file_url urlencode]) /\ (b = [] \/ b = [file_url urlencode]) /\
    log' = log ++ experiment_url urlencode ::
                  experiment_url urlencode :: a ++
                  experiment_url urlencode :: b ++ [biosample_types_url].
Proof.
  unfold api_options, guarded.
  destruct (io_bind _ _ log) as [[bd|msg] l] eqn:E; [|discriminate].
  intros H. injection H as _ <-.
  apply io_bind_returned in E. destruct E as [base [l1 [H1 E]]].
  apply io_bind_returned in E. destruct E as [ts [l2 [H2 E]]].
  apply io_bind_returned in E. destruct E as [cs [l3 [H3 E]]].
  apply io_bind_returned in E. destruct E as [t [l4 [H4 E]]].
  unfold ret in E. injection E as _ <-.
  unfold get_assays_and_organisms in H1. apply io_bind_returned in H1.
  destruct H1 as [p [l0 [H0 H1]]]. apply payload_log in H0. subst l0.
  unfold ret in H1. injection H1 as _ <-. fold (experiment_url urlencode) in *.
  apply targets_log in H2. destruct H2 as [a [Ha ->]].
  apply cell_types_log in H3. destruct H3 as [b [Hb ->]].
  apply cell_tree_log in H4. subst l4.
  exists a, b. split; [assumption|]. split; [assumption|].
  repeat (rewrite <- app_assoc; simpl). reflexivity.
Qed.
End SuccessFacts.

Lemma api_options_success_requests_witness :
  exists a b,
    (a = [] \/ a = [file_url sample_urlencode]) /\
    (b = [] \/ b = [file_url sample_urlencode]) /\
    [experiment_url sample_urlencode; experiment_url sample_urlencode;
     file_url sample_urlencode; experiment_url sample_urlencode;
     file_url sample_urlencode; biosample_types_url] =
    [] ++ experiment_url sample_urlencode ::
          experiment_url sample_urlencode :: a ++
          experiment_url sample_urlencode :: b ++ [biosample_types_url].
Proof.
  eapply (api_options_success_requests sample_urlencode bare_server insertion_order []).
  reflexivity.
Defined.

(** * More on the tree of [get_cell_tree] *)

Lemma load_terms_intro (bios : list biosample_type) (b : biosample_type) :
  In b bios -> ~ excluded b ->
  exists name, term_name b = Some name /\
               In (EncTerm name (or_else (cell_slims b) [])) (load_terms bios).
Proof.
  intros Hin Hex. apply in_split in Hin. destruct Hin as [pre [post ->]].
  destruct (load_terms_included b post Hex) as [name [Hn [_ E]]].
  exists name. split; [assumption|]. rewrite load_terms_app, E.
  apply in_or_app. right. now left.
Qed.

(** X14. The pass that drops empty buckets drops nothing: a bucket is
    created by the insertion of a name, so the index is the dictionary
    the first loop built, and every bucket of it has a member. *)
Theorem bucket_pruning_keeps_all (enc_terms : list enc_term) :
  slim_buckets enc_terms = fold_left add_term enc_terms [] /\
  forall slim, In slim (slims (slim_buckets enc_terms)) ->
               getitem (slim_buckets enc_terms) slim <> [].
Proof.
  split; [apply slim_buckets_raw|]. intros slim H.
  destruct (getitem_key (slim_buckets enc_terms) (slim_buckets_wf enc_terms) slim H)
    as [v [_ [-> Hv]]]. exact Hv.
Qed.

Lemma bucket_pruning_keeps_all_witness :
  slim_buckets (load_terms chain_catalog) = fold_left add_term (load_terms chain_catalog) [] /\
  forall slim, In slim (slims (slim_buckets (load_terms chain_catalog))) ->
               getitem (slim_buckets (load_terms chain_catalog)) slim <> [].
Proof. exact (bucket_pruning_keeps_all (load_terms chain_catalog)). Defined.

Section MemberFacts.
Variables (order : set_order) (bios : list biosample_type).

Let d := catalog_index bios.

Lemma getitem_records (s m : string) :
  In m (getitem d s) <->
  exists b, In b bios /\ ~ excluded b /\ term_name b = Some m /\
            In s (or_else (cell_slims b) []).
Proof.
  unfold d, catalog_index. change (getitem (slim_buckets (load_terms bios)) s)
    with (bucket (slim_buckets (load_terms bios)) s).
  rewrite slim_buckets_members. split.
  - intros [t [Ht [-> Hs]]]. apply load_terms_In in Ht.
    destruct Ht as [b [Hb [Hex [Hn Hsl]]]]. exists b. rewrite <- Hsl. auto.
  - intros [b [Hb [Hex [Hn Hs]]]].
    destruct (load_terms_intro bios b Hb Hex) as [name [Hn' Ht]].
    rewrite Hn in Hn'. inversion Hn'; subst name.
    exists (EncTerm m (or_else (cell_slims b) [])). auto.
Qed.

Lemma child_strict_subset (p c : string) :
  In c (children_of order d p) -> strict_subset (getitem d c) (getitem d p).
Proof.
  pose proof (catalog_index_wf bios) as Hwf. fold d in Hwf. intros H.
  apply (children_of_spec order d Hwf) in H. destruct H as [_ [H _]].
  apply (parent_of_Some order d Hwf) in H. now destruct H as [[[_ [_ H]] _] _].
Qed.

(** The aggregate of a slim adds nothing to its members. *)
Lemma aggv_members (k : nat) (s m : string) :
  rank d s < k -> In s (slims d) ->
  (In m (aggv order d s) <-> In m (getitem d s)).
Proof.
  pose proof (catalog_index_wf bios) as Hwf. fold d in Hwf.
  revert s. induction k as [|k IH]; intros s Hr Hs; [lia|].
  rewrite (aggv_In order d Hwf s m Hs), (members_of_In order d). split.
  - intros [H|[c [Hc H]]]; [assumption|].
    destruct (child_rank order d Hwf _ _ Hc) as [Hc' Hlt].
    apply (IH c) in H; [|lia|assumption].
    destruct (child_strict_subset _ _ Hc) as [Hincl _]. now apply Hincl.
  - intros H. now left.
Qed.

Lemma packed_subtree_members (fuel : nat) (s m : string) (n : tree_node) :
  pack (final_table order d) fuel s = Some n ->
  (In m (aggv order d s) <-> exists n', In n' (subnodes n) /\ In m (tn_members n')).
Proof.
  pose proof (catalog_index_wf bios) as Hwf. fold d in Hwf.
  revert s n. induction fuel as [|fuel IH]; intros s n H; [discriminate|].
  rewrite pack_S in H. destruct (set_mem s (slims d)) eqn:Hs; [|discriminate].
  apply set_mem_In in Hs.
  destruct (mapM _ _) as [ch|] eqn:E; [|discriminate].
  cbn [bind] in H. inversion H; subst n. clear H. apply mapM_Forall2 in E.
  rewrite (aggv_In order d Hwf s m Hs). cbn [subnodes]. split.
  - intros [Hm|[c [Hc Hm]]].
    + eexists. split; [now left|exact Hm].
    + apply (proj2 (sorted_In casefold String.ltb _ _)) in Hc.
      destruct (Forall2_In_l E Hc) as [nc [Hnc Hp]].
      apply (IH c nc Hp) in Hm. destruct Hm as [n' [Hn' Hm]].
      exists n'. split; [|assumption]. right. apply in_flat_map. eauto.
  - intros [n' [[<-|Hn'] Hm]]; [now left|]. right.
    apply in_flat_map in Hn'. destruct Hn' as [nc [Hnc Hn']].
    destruct (Forall2_In_r E Hnc) as [c [Hc Hp]].
    apply (proj1 (sorted_In casefold String.ltb _ _)) in Hc.
    exists c. split; [assumption|]. apply (IH c nc Hp). eauto.
Qed.

(** X15. The members of a slim node are the names of the records that
    pass the filter and list the label of the node among their slims;
    there is at least one. *)
Theorem node_members_are_carriers (r : response) (n : tree_node) :
  get_cell_tree order bios = Some r -> In n (slim_nodes (tree r)) ->
  tn_members n <> [] /\
  forall m, In m (tn_members n) <->
            exists b, In b bios /\ ~ excluded b /\ term_name b = Some m /\
                      In (tn_label n) (or_else (cell_slims b) []).
Proof.
  pose proof (catalog_index_wf bios) as Hwf. fold d in Hwf. intros Hr Hn.
  destruct (slim_nodes_packed order bios r n Hr Hn) as [s [Hs Hp]].
  destruct (packed_inv order _ _ _ Hp) as [_ [ch [_ ->]]].
  cbn [tn_members tn_label].
  assert (Hiff : forall m, In m (members_of order (catalog_index bios) s) <->
            exists b, In b bios /\ ~ excluded b /\ term_name b = Some m /\
                      In s (or_else (cell_slims b) [])).
  { intros m. rewrite (members_of_In order). apply getitem_records. }
  split; [|exact Hiff].
  destruct (getitem_key d Hwf s Hs) as [v [_ [Ev Hv]]].
  destruct v as [|m v]; [congruence|]. intros Hnil.
  assert (Hm : In m (members_of order d s)).
  { apply (members_of_In order). rewrite Ev. now left. }
  unfold d in Hm. now rewrite Hnil in Hm.
Qed.

(** X16. The aggregate members of a slim node are the members of the
    nodes of its subtree, itself included. *)
Theorem aggregate_is_subtree_members (r : response) (n : tree_node) :
  get_cell_tree order bios = Some r -> In n (slim_nodes (tree r)) ->
  forall m, In m (tn_aggregate_members n) <->
            exists n', In n' (subnodes n) /\ In m (tn_members n').
Proof.
  intros Hr Hn m.
  destruct (slim_nodes_packed order bios r n Hr Hn) as [s [Hs [fuel Hp]]].
  rewrite (packed_aggregate order _ s n (ex_intro _ fuel Hp)).
  exact (packed_subtree_members fuel s m n Hp).
Qed.

(** X17. A child only repeats members of its parent, so the aggregate
    members of a slim node are, as a set, its own members. *)
Theorem aggregate_adds_nothing (r : response) (n : tree_node) :
  get_cell_tree order bios = Some r -> In n (slim_nodes (tree r)) ->
  forall m, In m (tn_aggregate_members n) <-> In m (tn_members n).
Proof.
  intros Hr Hn m.
  destruct (slim_nodes_packed order bios r n Hr Hn) as [s [Hs Hp]].
  destruct (packed_inv order _ _ _ Hp) as [_ [ch [_ ->]]].
  cbn [tn_aggregate_members tn_members].
  transitivity (In m (getitem d s)).
  - exact (aggv_members _ _ m (rank_budget d s Hs) Hs).
  - symmetry. apply (members_of_In order).
Qed.

(** X18. A child node has strictly fewer members than its parent node,
    all of them members of the parent. *)
Theorem child_members_strict_subset (r : response) (n c : tree_node) :
  get_cell_tree order bios = Some r -> In n (slim_nodes (tree r)) ->
  In c (tn_children n) ->
  strict_subset (tn_members c) (tn_members n) /\
  List.length (tn_members c) < List.length (tn_members n).
Proof.
  pose proof (catalog_index_wf bios) as Hwf. fold d in Hwf. intros Hr Hn Hc.
  destruct (slim_nodes_packed order bios r n Hr Hn) as [s [Hs Hp]].
  destruct (packed_inv order _ _ _ Hp) as [_ [ch [Hch ->]]].
  cbn [tn_children tn_members] in *.
  destruct (Forall2_In_r Hch Hc) as [c0 [Hc0 Hpc]].
  apply (proj1 (sorted_In casefold String.ltb _ _)) in Hc0.
  destruct (packed_inv order _ _ _ Hpc) as [_ [ch' [_ ->]]].
  cbn [tn_members].
  pose proof (child_strict_subset _ _ Hc0) as [Hincl Hnot].
  assert (Hlen : forall x, List.length (members_of order d x) = List.length (getitem d x)).
  { intros x. unfold members_of. rewrite sorted_length.
    apply Permutation_length, iter_perm. }
  split; [split|].
  - intros m Hm. apply (members_of_In order d), Hincl.
    now apply (members_of_In order d) in Hm.
  - intros H. apply Hnot. intros m Hm. apply (members_of_In order d), H.
    now apply (members_of_In order d).
  - fold d. rewrite !Hlen.
    apply (strict_subset_sizes d Hwf c0 s). now split.
Qed.

(** X19. The aggregate members of the synthetic root are the names of
    the records that pass the filter and list at least one slim, whether
    or not every slim got a node. *)
Theorem root_aggregate_is_all_carriers (r : response) :
  get_cell_tree order bios = Some r ->
  forall m, In m (tn_aggregate_members (tree r)) <->
            exists b, In b bios /\ ~ excluded b /\ term_name b = Some m /\
                      or_else (cell_slims b) [] <> [].
Proof.
  pose proof (catalog_index_wf bios) as Hwf. fold d in Hwf. intros Hr m. split.
  - intros Hm. apply (tree_members_record order bios r (tree r) m Hr).
    + destruct (tree r). now left.
    + now right.
  - intros [b [Hb [Hex [Hn Hsl]]]].
    destruct (or_else (cell_slims b) []) as [|s sl] eqn:Esl; [congruence|].
    assert (Hm : In m (getitem d s)).
    { apply getitem_records. exists b. rewrite Esl. repeat split; auto. now left. }
    assert (Hs : In s (slims d)).
    { destruct (dict_get d s) as [v|] eqn:Eg.
      - now apply dict_get_Some_key in Eg.
      - unfold getitem in Hm. now rewrite Eg in Hm. }
    destruct (get_cell_tree_eq order bios) as [ch [_ [_ E]]].
    rewrite E in Hr. inversion Hr; subst r. cbn [tree tn_aggregate_members].
    apply (proj2 (sorted_In casefold String.ltb _ _)).
    apply (Permutation_in _ (Permutation_sym (iter_perm order _))).
    apply set_of_list_In, in_concat. exists (aggv order d s).
    split; [now apply in_map|].
    now apply (aggv_members _ _ m (rank_budget d s Hs) Hs).
Qed.
End MemberFacts.

Lemma node_members_are_carriers_witness :
  tn_members (TreeNode "SLIM::x" "x" ["A"] ["A"] []) <> [] /\
  forall m, In m (tn_members (TreeNode "SLIM::x" "x" ["A"] ["A"] [])) <->
            exists b, In b chain_catalog /\ ~ excluded b /\ term_name b = Some m /\
                      In (tn_label (TreeNode "SLIM::x" "x" ["A"] ["A"] []))
                         (or_else (cell_slims b) []).
Proof.
  eapply (node_members_are_carriers insertion_order chain_catalog).
  - reflexivity.
  - cbn. right. now left.
Defined.

Lemma aggregate_is_subtree_members_witness :
  In "B" (tn_aggregate_members
            (TreeNode "SLIM::y" "y" ["A"; "B"] ["A"; "B"]
               [TreeNode "SLIM::x" "x" ["A"] ["A"] []])) <->
  exists n',
    In n' (subnodes (TreeNode "SLIM::y" "y" ["A"; "B"] ["A"; "B"]
                       [TreeNode "SLIM::x" "x" ["A"] ["A"] []])) /\
    In "B" (tn_members n').
Proof.
  eapply (aggregate_is_subtree_members insertion_order chain_catalog).
  - reflexivity.
  - cbn. now left.
Defined.

Lemma aggregate_adds_nothing_witness :
  In "B" (tn_aggregate_members
            (TreeNode "SLIM::y" "y" ["A"; "B"] ["A"; "B"]
               [TreeNode "SLIM::x" "x" ["A"] ["A"] []])) <->
  In "B" (tn_members
            (TreeNode "SLIM::y" "y" ["A"; "B"] ["A"; "B"]
               [TreeNode "SLIM::x" "x" ["A"] ["A"] []])).
Proof.
  eapply (aggregate_adds_nothing insertion_order chain_catalog).
  - reflexivity.
  - cbn. now left.
Defined.

Lemma child_members_strict_subset_witness :
  strict_subset (tn_members (TreeNode "SLIM::x" "x" ["A"] ["A"] []))
                (tn_members (TreeNode "SLIM::y" "y" ["A"; "B"] ["A"; "B"]
                               [TreeNode "SLIM::x" "x" ["A"] ["A"] []])) /\
  List.length (tn_members (TreeNode "SLIM::x" "x" ["A"] ["A"] [])) <
  List.length (tn_members (TreeNode "SLIM::y" "y" ["A"; "B"] ["A"; "B"]
                             [TreeNode "SLIM::x" "x" ["A"] ["A"] []])).
Proof.
  eapply (child_members_strict_subset insertion_order chain_catalog).
  - reflexivity.
  - cbn. now left.
  - cbn. now left.
Defined.

Lemma root_aggregate_is_all_carriers_witness :
  In "A" (tn_aggregate_members
            (tree (Response true
                     (TreeNode "SLIM::ROOT" "Cell types" [] ["A"; "B"]
                        [TreeNode "SLIM::" "" ["A"; "B"] ["A"; "B"] []])))) <->
  exists b, In b empty_label_catalog /\ ~ excluded b /\ term_name b = Some "A" /\
            or_else (cell_slims b) [] <> [].
Proof.
  apply (root_aggregate_is_all_carriers insertion_order empty_label_catalog).
  reflexivity.
Defined.
